(** * git-multi-push: a shallow embedding of the batch git tool

    The repository holds two variants of one Go program:
    - [src/git-multi-push/main.go], where checkout composes the clone
      source from a provider base URL and a repository name;
    - the second variant, where every line of the repo file is a complete
      clone URL.
    Both share [run], [isGitRepo], [hasChanges], [getCurrentBranch],
    [processRepo] and the dispatch loop of [main].

    The operating system (file system, external processes, PATH lookup) is
    an interface [Host]; the program runs in a state monad over the host's
    world and a trace of observable events (external processes started,
    lines printed on standard output, lines sent to the logger).

    A run of [main] is modelled in three parts: [main] up to its loops
    ([Startup]), the loop that dispatches one goroutine per line under
    the channel of capacity [-parallel] ([Gate], a transition system over
    all interleavings), and the workflow of one goroutine ([processRepo],
    [checkoutRepo]), a function of the state it starts in. *)

From Stdlib Require Import String Ascii List Bool Arith ZArith Lia DecimalString.
Import ListNotations.
Local Open Scope list_scope.
Local Open Scope string_scope.

(** ** Go's [strings] and [path/filepath] functions used by the program *)

Module GoStrings.

Definition byte (n : nat) : string := String (ascii_of_nat n) EmptyString.
Definition bytes (l : list nat) : string :=
  fold_right (fun n s => String (ascii_of_nat n) s) EmptyString l.

(** The newline that ends every format string of the program. *)
Definition nl : string := byte 10.

(** [strings.Split(s, sep)] for a one-byte separator (the program only
    splits on a comma): the substrings between the separators, kept as
    they are. [Split("", sep)] is the one-element list [[""]]. *)
Fixpoint Split (s : string) (sep : ascii) : list string :=
  match s with
  | EmptyString => [EmptyString]
  | String c r =>
      if Ascii.eqb c sep then EmptyString :: Split r sep
      else match Split r sep with
           | x :: xs => String c x :: xs
           | [] => [String c EmptyString]
           end
  end.

(** Whether a byte occurs in a string, whether it is its last byte, and
    the string of [n] copies of a byte. *)
Fixpoint occurs (c : ascii) (s : string) : bool :=
  match s with
  | EmptyString => false
  | String a r => Ascii.eqb a c || occurs c r
  end.

Fixpoint endsWith (c : ascii) (s : string) : bool :=
  match s with
  | EmptyString => false
  | String a EmptyString => Ascii.eqb a c
  | String _ r => endsWith c r
  end.

Fixpoint replicate (n : nat) (c : ascii) : string :=
  match n with
  | O => EmptyString
  | S n' => String c (replicate n' c)
  end.

(** [strings.Join(elems, sep)]. *)
Definition Join (elems : list string) (sep : string) : string :=
  String.concat sep elems.

(** [strings.TrimRight(s, cutset)] for a one-byte cutset: every trailing
    occurrence of the byte is removed. *)
Fixpoint TrimRight (s : string) (cut : ascii) : string :=
  match s with
  | EmptyString => EmptyString
  | String a r =>
      match TrimRight r cut with
      | EmptyString => if Ascii.eqb a cut then EmptyString else String a EmptyString
      | r' => String a r'
      end
  end.

(** [strings.HasSuffix] and [strings.TrimSuffix]: the suffix is removed
    once, when present. *)
Definition HasSuffix (s suffix : string) : bool :=
  Nat.leb (String.length suffix) (String.length s) &&
  (substring (String.length s - String.length suffix) (String.length suffix) s
     =? suffix).

Definition TrimSuffix (s suffix : string) : string :=
  if HasSuffix s suffix
  then substring 0 (String.length s - String.length suffix) s
  else s.

(** [strings.TrimSpace]: leading and trailing white space removed, white
    space being Unicode's White_Space property; on the UTF-8 bytes of a Go
    string these are the following byte sequences. *)
Definition spaces : list string :=
  [ byte 9; byte 10; byte 11; byte 12; byte 13; byte 32;
    bytes [194; 133]; bytes [194; 160]; bytes [225; 154; 128];
    bytes [226; 128; 128]; bytes [226; 128; 129]; bytes [226; 128; 130];
    bytes [226; 128; 131]; bytes [226; 128; 132]; bytes [226; 128; 133];
    bytes [226; 128; 134]; bytes [226; 128; 135]; bytes [226; 128; 136];
    bytes [226; 128; 137]; bytes [226; 128; 138]; bytes [226; 128; 168];
    bytes [226; 128; 169]; bytes [226; 128; 175]; bytes [226; 129; 159];
    bytes [227; 128; 128] ].

Definition dropPrefix (n : nat) (s : string) : string :=
  substring n (String.length s - n) s.

Fixpoint trimLeftSpace (fuel : nat) (s : string) : string :=
  match fuel with
  | O => s
  | S fuel' =>
      match find (fun w => prefix w s) spaces with
      | Some w => trimLeftSpace fuel' (dropPrefix (String.length w) s)
      | None => s
      end
  end.

Fixpoint trimRightSpace (fuel : nat) (s : string) : string :=
  match fuel with
  | O => s
  | S fuel' =>
      match find (fun w => HasSuffix s w) spaces with
      | Some w => trimRightSpace fuel' (TrimSuffix s w)
      | None => s
      end
  end.

Definition TrimSpace (s : string) : string :=
  let s' := trimLeftSpace (String.length s) s in
  trimRightSpace (String.length s') s'.

(** [filepath.Base] (Unix separator): the last element of the path,
    trailing slashes removed first; ["."] for the empty path and ["/"]
    for a path of slashes only. *)
Definition Base (path : string) : string :=
  if path =? "" then "."
  else
    let p := TrimRight path "/" in
    let p := last (Split p "/") "" in
    if p =? "" then "/" else p.

(** [filepath.Clean]: the shortest lexically equivalent path. *)
Definition cleanStep (rooted : bool) (stack : list string) (e : string)
  : list string :=
  if (e =? "") || (e =? ".") then stack
  else if e =? ".." then
    match stack with
    | top :: rest => if top =? ".." then e :: stack else rest
    | [] => if rooted then [] else [e]
    end
  else e :: stack.

Definition Clean (path : string) : string :=
  if path =? "" then "."
  else
    let rooted := prefix "/" path in
    let body := Join (rev (fold_left (cleanStep rooted) (Split path "/") [])) "/" in
    if rooted then "/" ++ body
    else if body =? "" then "." else body.

(** [filepath.Join]: empty elements are ignored, the rest joined with
    the separator and cleaned; no element left gives the empty string. *)
Definition filepath_Join (elems : list string) : string :=
  match filter (fun e => negb (e =? "")) elems with
  | [] => ""
  | es => Clean (Join es "/")
  end.

End GoStrings.
Import GoStrings.

(** ** Errors, commands and the host system *)

(** Go's [error] values the program can meet: the path errors of [os.Stat],
    the exit error of a finished process, and any other error. *)
Inductive error : Type :=
| ErrNotExist (op path : string)
| ErrPermission (op path : string)
| ExitError (code : nat)
| ErrOther (msg : string).

(** [err.Error()], what [%v] prints. *)
Definition Error (e : error) : string :=
  match e with
  | ErrNotExist op path => op ++ " " ++ path ++ ": no such file or directory"
  | ErrPermission op path => op ++ " " ++ path ++ ": permission denied"
  | ExitError code => "exit status " ++ NilZero.string_of_uint (Nat.to_uint code)
  | ErrOther msg => msg
  end.

(** [os.FileInfo], of which the program reads [IsDir] only. *)
Record FileInfo : Type := { IsDir : bool }.

(** [exec.Cmd]: the fields the program sets or reads. *)
Record Cmd : Type := { Path : string; Args : list string; Dir : string }.

Definition withDir (c : Cmd) (dir : string) : Cmd :=
  {| Path := Path c; Args := Args c; Dir := dir |}.

(** What the program does that can be observed from outside: an external
    process run to its end ([cmd.Run] or [cmd.Output]) with the error it
    ended with, a line printed on the standard output ([fmt.Printf]), a line
    sent to the logger ([logger.Printf]; the time stamp the logger puts in
    front is left out). *)
Inductive Event : Type :=
| Exec (c : Cmd) (err : option error)
| Print (line : string)
| Log (line : string).

(** The operating system as the program sees it. [start] runs a process to
    its end: the bytes it wrote on its standard output, its error if any,
    and the world it leaves. [Now] is [time.Now().Format(time.RFC3339)]. *)
Class Host : Type := {
  World : Type;
  os_Stat : string -> World -> FileInfo + error;
  LookPath : string -> option string;
  start : Cmd -> World -> (string * option error) * World;
  Now : World -> string
}.

(** ** The program *)

Module Common.
Section Program.
Context {H : Host}.

Record State : Type := { world : World; trace : list Event }.

Definition M (A : Type) : Type := State -> A * State.
Definition ret {A} (a : A) : M A := fun s => (a, s).
Definition bind {A B} (m : M A) (k : A -> M B) : M B :=
  fun s => let (a, s') := m s in k a s'.

Local Notation "x <- m ;; k" := (bind m (fun x => k))
  (at level 61, m at next level, right associativity).
Local Notation "m ;; k" := (bind m (fun _ => k))
  (at level 61, right associativity).

Definition emit (e : Event) : M unit :=
  fun s => (tt, {| world := world s; trace := trace s ++ [e] |}).

Definition Printf (line : string) : M unit := emit (Print line).
Definition logger_Printf (line : string) : M unit := emit (Log line).

Definition Stat (name : string) : M (FileInfo + error) :=
  fun s => (os_Stat name (world s), s).

(** An external process runs to its end. *)
Definition spawn (c : Cmd) : M (string * option error) :=
  fun s => let (r, w') := start c (world s) in
           (r, {| world := w'; trace := trace s ++ [Exec c (snd r)] |}).

(** [exec.Command(name, arg...)]: a name without a path separator is
    looked up in PATH. *)
Definition Command (name : string) (arg : list string) : Cmd :=
  {| Path := if Base name =? name
             then match LookPath name with Some p => p | None => name end
             else name;
     Args := name :: arg;
     Dir := "" |}.

(** [cmd.Output()]: the process's standard output and its error. *)
Definition Output (c : Cmd) : M (string * option error) := spawn c.

(** [cmd.Run()] with the program's own standard streams. *)
Definition Run (c : Cmd) : M (option error) :=
  r <- spawn c ;; ret (snd r).

(** The preview line of a dry run. *)
Definition preview (cmd : Cmd) : string :=
  "[Dry-Run] " ++ Path cmd ++ " " ++ Join (tl (Args cmd)) " " ++ nl.

(** [run], the command runner. *)
Definition run (cmd : Cmd) (dryRun : bool) : M (option error) :=
  if dryRun then
    Printf (preview cmd) ;;
    ret None
  else Run cmd.

Definition isGitRepo (path : string) : M bool :=
  r <- Stat (filepath_Join [path; ".git"]) ;;
  ret match r with
      | inl info => IsDir info
      | inr _ => false
      end.

Definition statusCmd (repo : string) : Cmd :=
  withDir (Command "git" ["status"; "--porcelain"]) repo.

Definition hasChanges (repo : string) : M bool :=
  let cmd := statusCmd repo in
  r <- Output cmd ;;
  ret match snd r with
      | Some _ => false
      | None => Nat.ltb 0 (String.length (fst r))
      end.

Definition branchCmd (repo : string) : Cmd :=
  withDir (Command "git" ["rev-parse"; "--abbrev-ref"; "HEAD"]) repo.

Definition getCurrentBranch (repo : string) : M (string * option error) :=
  let cmd := branchCmd repo in
  r <- Output cmd ;;
  ret match snd r with
      | Some err => ("", Some err)
      | None => (TrimSpace (fst r), None)
      end.

(** The return point a workflow leaves through. The Go functions return
    nothing; the model returns which of their exits was taken, under the
    names of the workflow states. *)
Inductive SkipReason : Type :=
| NotARepository
| BranchCheckFailed (err : error)
| BranchNotAllowed (branch : string)
| NoChanges
| AlreadyExists.

Inductive Outcome : Type :=
| Skipped (reason : SkipReason)
| Failed (err : error)
| Succeeded.

(** The search loop of [processRepo]: [match] is set at the first
    allowed branch equal to [branch]. *)
Fixpoint matchBranch (allowedBranches : list string) (branch : string) : bool :=
  match allowedBranches with
  | [] => false
  | b :: rest => if b =? branch then true else matchBranch rest branch
  end.

(** The lines [processRepo] sends to the logger. *)
Definition lineNotRepo (repo : string) : string :=
  "[" ++ repo ++ "] Kein Git-Repo, übersprungen" ++ nl.
Definition lineBranchCheck (repo : string) (err : error) : string :=
  "[" ++ repo ++ "] Fehler beim Branch-Check: " ++ Error err ++ nl.
Definition lineNotAllowed (repo branch : string) : string :=
  "[" ++ repo ++ "] Übersprungen: Branch '" ++ branch ++ "' nicht erlaubt" ++ nl.
Definition lineNoChanges (repo : string) : string :=
  "[" ++ repo ++ "] Keine Änderungen, übersprungen" ++ nl.
Definition lineRunning (repo branch : string) : string :=
  "[" ++ repo ++ "] Bearbeite Repo auf Branch '" ++ branch ++ "'" ++ nl.
Definition lineFailed (repo : string) (err : error) : string :=
  "[" ++ repo ++ "] Fehler: " ++ Error err ++ nl.

(** The branch gate of [processRepo]: a non-empty allow list in which
    the search found no match. *)
Definition branchRejected (allowedBranches : list string) (branch : string) : bool :=
  Nat.ltb 0 (List.length allowedBranches) && negb (matchBranch allowedBranches branch).

(** The three commands of the commit-and-push pipeline. *)
Definition cmds (commitMessage : string) : list (list string) :=
  [ ["git"; "add"; "-A"];
    ["git"; "commit"; "-m"; commitMessage];
    ["git"; "push"] ].

(** The command the loop builds from an element of [cmds]. *)
Definition stepCmd (repo : string) (c : list string) : Cmd :=
  withDir (Command (hd "" c) (tl c)) repo.

(** The loop over [cmds]: it stops at the first command whose run
    returns an error, after logging it. *)
Fixpoint pipeline (repo : string) (cs : list (list string)) (dryRun : bool)
  : M Outcome :=
  match cs with
  | [] => ret Succeeded
  | c :: rest =>
      let cmd := stepCmd repo c in
      r <- run cmd dryRun ;;
      match r with
      | Some err =>
          logger_Printf (lineFailed repo err) ;;
          ret (Failed err)
      | None => pipeline repo rest dryRun
      end
  end.

(** [processRepo], the commit-and-push workflow of one target. Its
    [defer wg.Done()] belongs to the dispatch loop, see [Gate]. *)
Definition processRepo (repo commitMessage : string)
    (allowedBranches : list string) (dryRun : bool) : M Outcome :=
  isRepo <- isGitRepo repo ;;
  if negb isRepo then
    logger_Printf (lineNotRepo repo) ;;
    ret (Skipped NotARepository)
  else
    b <- getCurrentBranch repo ;;
    match snd b with
    | Some err =>
        logger_Printf (lineBranchCheck repo err) ;;
        ret (Skipped (BranchCheckFailed err))
    | None =>
        let branch := fst b in
        if branchRejected allowedBranches branch then
          logger_Printf (lineNotAllowed repo branch) ;;
          ret (Skipped (BranchNotAllowed branch))
        else
          changed <- hasChanges repo ;;
          if negb changed then
            logger_Printf (lineNoChanges repo) ;;
            ret (Skipped NoChanges)
          else
            logger_Printf (lineRunning repo branch) ;;
            pipeline repo (cmds commitMessage) dryRun
    end.

(** The three commands as the loop builds them. *)
Definition stageCmd (repo : string) : Cmd :=
  stepCmd repo ["git"; "add"; "-A"].
Definition commitCmd (repo commitMessage : string) : Cmd :=
  stepCmd repo ["git"; "commit"; "-m"; commitMessage].
Definition pushCmd (repo : string) : Cmd :=
  stepCmd repo ["git"; "push"].

(** The runs of the pipeline that the workflow description allows, as
    the events after the line that announces the Running state: the
    steps stage-all, commit-with-message and push in this order through
    the runner, the first failure logged and nothing after it; in a dry
    run the three previews. *)
Inductive pipelineRun (repo msg : string) : bool -> Outcome -> list Event -> Prop :=
| stage_fails err :
    pipelineRun repo msg false (Failed err)
      [Exec (stageCmd repo) (Some err); Log (lineFailed repo err)]
| commit_fails err :
    pipelineRun repo msg false (Failed err)
      [Exec (stageCmd repo) None; Exec (commitCmd repo msg) (Some err);
       Log (lineFailed repo err)]
| push_fails err :
    pipelineRun repo msg false (Failed err)
      [Exec (stageCmd repo) None; Exec (commitCmd repo msg) None;
       Exec (pushCmd repo) (Some err); Log (lineFailed repo err)]
| all_pass :
    pipelineRun repo msg false Succeeded
      [Exec (stageCmd repo) None; Exec (commitCmd repo msg) None;
       Exec (pushCmd repo) None]
| all_previewed :
    pipelineRun repo msg true Succeeded
      [Print (preview (stageCmd repo)); Print (preview (commitCmd repo msg));
       Print (preview (pushCmd repo))].

(** The lines [checkoutRepo] sends to the logger, in both variants. *)
Definition lineExists (targetDir : string) : string :=
  "[" ++ targetDir ++ "] Verzeichnis existiert, übersprungen" ++ nl.
Definition lineCloneFailed (targetDir : string) (err : error) : string :=
  "[" ++ targetDir ++ "] Checkout Fehler: " ++ Error err ++ nl.
Definition lineCloned (targetDir : string) : string :=
  "[" ++ targetDir ++ "] Erfolgreich ausgecheckt" ++ nl.

(** The argument list [checkoutRepo] builds for [git]. *)
Definition cloneArgs (source branch targetDir : string) : list string :=
  let args := ["clone"] in
  let args := if negb (branch =? "") then (args ++ ["-b"; branch])%list else args in
  (args ++ [source; targetDir])%list.

(** The command [checkoutRepo] hands to the runner. *)
Definition cloneCmd (source branch targetDir : string) : Cmd :=
  Command "git" (cloneArgs source branch targetDir).

(** The flags of the command line, as [flag.Parse] leaves them, and the
    positional arguments. [-parallel] is an [int]: it may be zero or
    negative. [-provider-url] exists in [main.go] only. *)
Record Flags : Type := {
  flag_dry : bool;
  flag_branch : string;
  flag_repo_file : string;
  flag_parallel : Z;
  flag_checkout : bool;
  flag_provider_url : string;
  flag_Args : list string
}.

(** [main]: the allow list from the [-branch] flag. *)
Definition allowedBranches (branches : string) : list string :=
  if negb (branches =? "") then Split branches "," else [].

(** The opening line of the log. *)
Definition starting : M unit :=
  fun s => logger_Printf ("=== Starte Operation: " ++ Now (world s) ++ " ===" ++ nl) s.

(** The end of [main], after [wg.Wait()] has returned. *)
Definition allDone : M unit :=
  logger_Printf ("=== Alle Jobs fertig ===" ++ nl) ;;
  Printf ("Alle Jobs fertig!" ++ nl).

(** The workflow a goroutine of the commit-and-push loop of [main]
    runs, for one line. *)
Definition pushJob (f : Flags) (commitMessage repo : string) : M Outcome :=
  processRepo repo commitMessage (allowedBranches (flag_branch f)) (flag_dry f).

(** A state reached from [s]: the world [w] and the events [ev] added. *)
Definition after (s : State) (w : World) (ev : list Event) : State :=
  {| world := w; trace := (trace s ++ ev)%list |}.

(** The events added between a state and a later one. *)
Definition added (s s' : State) : list Event :=
  skipn (List.length (trace s)) (trace s').

(** The five paths through [processRepo], each with the answers of the
    host that select it and the result it gives. *)
Inductive processRepoPath (repo msg : string) (allowed : list string)
    (dryRun : bool) (s : State) : Outcome * State -> Prop :=
| path_not_repo :
    fst (isGitRepo repo s) = false ->
    processRepoPath repo msg allowed dryRun s
      (Skipped NotARepository, after s (world s) [Log (lineNotRepo repo)])
| path_branch_error out err w1 :
    fst (isGitRepo repo s) = true ->
    start (branchCmd repo) (world s) = ((out, Some err), w1) ->
    processRepoPath repo msg allowed dryRun s
      (Skipped (BranchCheckFailed err),
       after s w1 [Exec (branchCmd repo) (Some err); Log (lineBranchCheck repo err)])
| path_not_allowed out w1 :
    fst (isGitRepo repo s) = true ->
    start (branchCmd repo) (world s) = ((out, None), w1) ->
    branchRejected allowed (TrimSpace out) = true ->
    processRepoPath repo msg allowed dryRun s
      (Skipped (BranchNotAllowed (TrimSpace out)),
       after s w1 [Exec (branchCmd repo) None;
                   Log (lineNotAllowed repo (TrimSpace out))])
| path_no_changes out w1 out2 err2 w2 :
    fst (isGitRepo repo s) = true ->
    start (branchCmd repo) (world s) = ((out, None), w1) ->
    branchRejected allowed (TrimSpace out) = false ->
    start (statusCmd repo) w1 = ((out2, err2), w2) ->
    err2 <> None \/ out2 = "" ->
    processRepoPath repo msg allowed dryRun s
      (Skipped NoChanges,
       after s w2 [Exec (branchCmd repo) None; Exec (statusCmd repo) err2;
                   Log (lineNoChanges repo)])
| path_running out w1 out2 w2 res :
    fst (isGitRepo repo s) = true ->
    start (branchCmd repo) (world s) = ((out, None), w1) ->
    branchRejected allowed (TrimSpace out) = false ->
    start (statusCmd repo) w1 = ((out2, None), w2) ->
    out2 <> "" ->
    res = pipeline repo (cmds msg) dryRun
            (after s w2 [Exec (branchCmd repo) None; Exec (statusCmd repo) None;
                         Log (lineRunning repo (TrimSpace out))]) ->
    processRepoPath repo msg allowed dryRun s res.

(** The outcome of a run of [processRepo] with the events it adds. *)
Inductive processRepoRun (repo msg : string) (allowed : list string)
    (dryRun : bool) : Outcome -> list Event -> Prop :=
| run_not_repo :
    processRepoRun repo msg allowed dryRun
      (Skipped NotARepository) [Log (lineNotRepo repo)]
| run_branch_error err :
    processRepoRun repo msg allowed dryRun
      (Skipped (BranchCheckFailed err))
      [Exec (branchCmd repo) (Some err); Log (lineBranchCheck repo err)]
| run_not_allowed branch :
    branchRejected allowed branch = true ->
    processRepoRun repo msg allowed dryRun
      (Skipped (BranchNotAllowed branch))
      [Exec (branchCmd repo) None; Log (lineNotAllowed repo branch)]
| run_no_changes branch err2 :
    branchRejected allowed branch = false ->
    processRepoRun repo msg allowed dryRun
      (Skipped NoChanges)
      [Exec (branchCmd repo) None; Exec (statusCmd repo) err2;
       Log (lineNoChanges repo)]
| run_pipeline branch o steps :
    branchRejected allowed branch = false ->
    pipelineRun repo msg dryRun o steps ->
    processRepoRun repo msg allowed dryRun o
      ([Exec (branchCmd repo) None; Exec (statusCmd repo) None;
        Log (lineRunning repo branch)] ++ steps)%list.

(** The projections of a trace. *)
Definition execs (t : list Event) : list Cmd :=
  flat_map (fun e => match e with Exec c _ => [c] | _ => [] end) t.
Definition printed (t : list Event) : list string :=
  flat_map (fun e => match e with Print l => [l] | _ => [] end) t.
Definition logged (t : list Event) : list string :=
  flat_map (fun e => match e with Log l => [l] | _ => [] end) t.

End Program.

Module Notations.
Notation "x <- m ;; k" := (bind m (fun x => k))
    (at level 61, m at next level, right associativity).
Notation "m ;; k" := (bind m (fun _ => k))
    (at level 61, right associativity).
End Notations.
End Common.
Import Common.

(** The variant of [src/git-multi-push/main.go]: checkout takes repository
    names and a provider base URL. *)
Module ProviderURL.
Import Common.Notations.
Section Program.
Context {H : Host}.

(** The clone source [checkoutRepo] composes. *)
Definition fullURL (providerURL repoName : string) : string :=
  TrimRight providerURL "/" ++ "/" ++ repoName ++ ".git".

Definition checkoutRepo (providerURL repoName branch targetDir : string)
    (dryRun : bool) : M Outcome :=
  st <- Stat targetDir ;;
  match st with
  | inl _ =>
      logger_Printf (lineExists targetDir) ;;
      ret (Skipped AlreadyExists)
  | inr _ =>
      let cmd := cloneCmd (fullURL providerURL repoName) branch targetDir in
      r <- run cmd dryRun ;;
      match r with
      | Some err =>
          logger_Printf (lineCloneFailed targetDir err) ;;
          ret (Failed err)
      | None =>
          logger_Printf (lineCloned targetDir) ;;
          ret Succeeded
      end
  end.

(** The body of the checkout loop of [main], for one line. *)
Definition checkoutJob (f : Flags) (repoName : string) : M Outcome :=
  let targetDir := repoName in
  checkoutRepo (flag_provider_url f) repoName "" targetDir (flag_dry f).

End Program.
End ProviderURL.

(** The second variant: every line of the repo file is a complete clone
    URL, and there is no provider flag. *)
Module DirectURL.
Import Common.Notations.
Section Program.
Context {H : Host}.

Definition checkoutRepo (url branch targetDir : string) (dryRun : bool)
  : M Outcome :=
  st <- Stat targetDir ;;
  match st with
  | inl _ =>
      logger_Printf (lineExists targetDir) ;;
      ret (Skipped AlreadyExists)
  | inr _ =>
      let cmd := cloneCmd url branch targetDir in
      r <- run cmd dryRun ;;
      match r with
      | Some err =>
          logger_Printf (lineCloneFailed targetDir err) ;;
          ret (Failed err)
      | None =>
          logger_Printf (lineCloned targetDir) ;;
          ret Succeeded
      end
  end.

(** The local directory of a clone URL, from the checkout loop of
    [main]. *)
Definition targetDir (url : string) : string :=
  TrimSuffix (Base url) ".git".

(** The body of the checkout loop of [main], for one line. *)
Definition checkoutJob (f : Flags) (url : string) : M Outcome :=
  checkoutRepo url "" (targetDir url) (flag_dry f).

End Program.
End DirectURL.

(** ** The dispatch loop of [main] and its gate

    [main] runs one goroutine per line under a buffered channel [sem] of
    capacity [-parallel] and a wait group [wg]:
<<
    for _, repo := range lines {
        wg.Add(1)
        sem <- struct{}{}
        go func(r string) {
            defer func() { <-sem }()
            processRepo(r, ..., &wg, logger)      // defer wg.Done() inside
        }(repo)
    }
    wg.Wait()
>>
    The loop is the same in checkout mode and in both variants. It is
    modelled as a transition system whose steps are the statements above,
    taken by the main thread or by any goroutine, in any interleaving. The
    capacity is a natural number: with a negative [-parallel] the program
    panics in [make] before the loop. *)

Module Gate.
Local Open Scope list_scope.

(** Where the main thread stands. *)
Inductive MainPc : Type :=
| AtLoop (rest : list string)                 (* head of the [for] *)
| AtSend (line : string) (rest : list string) (* after [wg.Add(1)] *)
| AtGo (line : string) (rest : list string)   (* after [sem <- struct{}{}] *)
| AtWait                                      (* at [wg.Wait()] *)
| AtExit.

(** Where a goroutine stands. *)
Inductive GoPc : Type :=
| Spawned      (* started, workflow not yet entered *)
| InWorkflow   (* inside [processRepo] or [checkoutRepo] *)
| Releasing    (* workflow returned, [wg.Done()] done, [<-sem] pending *)
| Ended.

Record Sys : Type := {
  mainPc : MainPc;
  sem : nat;                       (* elements in the channel buffer *)
  wg : nat;                        (* counter of the wait group *)
  gos : list (string * GoPc)       (* the goroutines, in spawn order *)
}.

Definition init (lines : list string) : Sys :=
  {| mainPc := AtLoop lines; sem := 0; wg := 0; gos := [] |}.

(** One statement of one thread; [cap] is the capacity of [sem]. A send
    on a full channel, a receive on an empty one and [wg.Wait()] on a
    non-zero counter block: they have no step. *)
Inductive step (cap : nat) : Sys -> Sys -> Prop :=
| step_add line rest s :
    mainPc s = AtLoop (line :: rest) ->
    step cap s {| mainPc := AtSend line rest; sem := sem s;
                  wg := S (wg s); gos := gos s |}
| step_send line rest s :
    mainPc s = AtSend line rest -> sem s < cap ->
    step cap s {| mainPc := AtGo line rest; sem := S (sem s);
                  wg := wg s; gos := gos s |}
| step_go line rest s :
    mainPc s = AtGo line rest ->
    step cap s {| mainPc := AtLoop rest; sem := sem s;
                  wg := wg s; gos := gos s ++ [(line, Spawned)] |}
| step_loop_end s :
    mainPc s = AtLoop [] ->
    step cap s {| mainPc := AtWait; sem := sem s; wg := wg s; gos := gos s |}
| step_wait s :
    mainPc s = AtWait -> wg s = 0 ->
    step cap s {| mainPc := AtExit; sem := sem s; wg := wg s; gos := gos s |}
| step_enter line before after s :
    gos s = before ++ (line, Spawned) :: after ->
    step cap s {| mainPc := mainPc s; sem := sem s; wg := wg s;
                  gos := before ++ (line, InWorkflow) :: after |}
| step_return line before after s :
    gos s = before ++ (line, InWorkflow) :: after ->
    step cap s {| mainPc := mainPc s; sem := sem s; wg := wg s - 1;
                  gos := before ++ (line, Releasing) :: after |}
| step_release line before after s n :
    gos s = before ++ (line, Releasing) :: after -> sem s = S n ->
    step cap s {| mainPc := mainPc s; sem := n; wg := wg s;
                  gos := before ++ (line, Ended) :: after |}.

Inductive reachable (cap : nat) (lines : list string) : Sys -> Prop :=
| reach_init : reachable cap lines (init lines)
| reach_step s s' :
    reachable cap lines s -> step cap s s' -> reachable cap lines s'.

Definition count (p : GoPc -> bool) (g : list (string * GoPc)) : nat :=
  List.length (filter (fun x => p (snd x)) g).

Definition inWorkflow (pc : GoPc) : bool :=
  match pc with InWorkflow => true | _ => false end.
Definition holdsSlot (pc : GoPc) : bool :=
  match pc with Ended => false | _ => true end.
Definition notReturned (pc : GoPc) : bool :=
  match pc with Spawned | InWorkflow => true | _ => false end.

(** The workflows that are executing. *)
Definition active (s : Sys) : nat := count inWorkflow (gos s).

(** The slots taken for a goroutine and not yet given back: one per
    goroutine that has not run its deferred [<-sem], and one when the
    main thread has sent and not yet spawned. *)
Definition held (s : Sys) : nat :=
  count holdsSlot (gos s) +
  match mainPc s with AtGo _ _ => 1 | _ => 0 end.

(** The jobs added to the wait group and not yet done. *)
Definition pending (s : Sys) : nat :=
  count notReturned (gos s) +
  match mainPc s with AtSend _ _ | AtGo _ _ => 1 | _ => 0 end.

Definition invariant (cap : nat) (s : Sys) : Prop :=
  sem s = held s /\ sem s <= cap /\ wg s = pending s.

End Gate.

(** ** A small host to run the program on

    A disk of paths, repositories with a branch and possibly pending
    changes, and a [git] that fails on listed argument lists. A successful
    clone creates its target directory; a successful commit leaves the
    repository clean. *)

Module Toy.

Record Disk : Type := {
  paths : list (string * bool);        (* path, and whether it is a directory *)
  denied : list string;                (* paths that may not be touched *)
  branches : list (string * string);   (* repository, checked-out branch *)
  dirty : list string;                 (* repositories with pending changes *)
  failing : list (list string)         (* argument lists on which git exits 1 *)
}.

Fixpoint lookup {A} (k : string) (l : list (string * A)) : option A :=
  match l with
  | [] => None
  | (k', a) :: rest => if k' =? k then Some a else lookup k rest
  end.

Definition mem (k : string) (l : list string) : bool :=
  existsb (String.eqb k) l.

Definition memArgs (a : list string) (l : list (list string)) : bool :=
  existsb (fun b => if list_eq_dec string_dec a b then true else false) l.

Definition stat (name : string) (d : Disk) : FileInfo + error :=
  if mem name (denied d) then inr (ErrPermission "stat" name)
  else match lookup name (paths d) with
       | Some isDir => inl {| IsDir := isDir |}
       | None => inr (ErrNotExist "stat" name)
       end.

Definition isArgs (a b : list string) : bool :=
  if list_eq_dec string_dec a b then true else false.

Definition git (c : Cmd) (d : Disk) : (string * option error) * Disk :=
  if memArgs (Args c) (failing d) then (("", Some (ExitError 1)), d)
  else if isArgs (Args c) ["git"; "rev-parse"; "--abbrev-ref"; "HEAD"] then
    match lookup (Dir c) (branches d) with
    | Some b => ((b ++ nl, None), d)
    | None => (("", Some (ExitError 128)), d)
    end
  else if isArgs (Args c) ["git"; "status"; "--porcelain"] then
    ((if mem (Dir c) (dirty d) then " M README.md" ++ nl else "", None), d)
  else if isArgs (firstn 3 (Args c)) ["git"; "commit"; "-m"] then
    (("", None),
     {| paths := paths d; denied := denied d; branches := branches d;
        dirty := filter (fun r => negb (r =? Dir c)) (dirty d);
        failing := failing d |})
  else if isArgs (firstn 2 (Args c)) ["git"; "clone"] then
    let dir := last (Args c) "" in
    if mem dir (denied d) then (("", Some (ExitError 128)), d) else
    (("", None),
     {| paths := (dir, true) :: paths d; denied := denied d;
        branches := (dir, "main") :: branches d;
        dirty := dirty d; failing := failing d |})
  else (("", None), d).

#[export] Instance host : Host := {
  World := Disk;
  os_Stat := stat;
  LookPath := fun name => if name =? "git" then Some "/usr/bin/git" else None;
  start := git;
  Now := fun _ => "2024-05-01T12:00:00Z"
}.

(** [repoA] is a repository on [main] with pending changes; [repoB] is a
    plain directory; [notes.txt] is a regular file; [vault] may not be
    touched. *)
Definition disk : Disk :=
  {| paths := [("repoA", true); ("repoA/.git", true); ("repoB", true);
               ("notes.txt", false)];
     denied := ["vault"];
     branches := [("repoA", "main")];
     dirty := ["repoA"];
     failing := [] |}.

Definition boot (d : Disk) : State := {| world := d; trace := [] |}.

Definition flags (dry checkout : bool) (branch url : string) (args : list string)
  : Flags :=
  {| flag_dry := dry; flag_branch := branch; flag_repo_file := "repos.txt";
     flag_parallel := 8%Z; flag_checkout := checkout;
     flag_provider_url := url; flag_Args := args |}.


(** A disk on which [git commit] fails. *)
Definition brokenCommit : Disk :=
  {| paths := paths disk; denied := denied disk; branches := branches disk;
     dirty := dirty disk; failing := [["git"; "commit"; "-m"; "sync"]] |}.

(** A disk on which the clone of the example fails. *)
Definition brokenClone : Disk :=
  {| paths := paths disk; denied := denied disk; branches := branches disk;
     dirty := dirty disk;
     failing := [["git"; "clone"; "https://example.org/org/teamrepo.git"; "teamrepo"]] |}.

(** The command [git] with its arguments in a directory, as the small
    host resolves it. *)
Definition git_ (args : list string) (dir : string) : Cmd :=
  {| Path := "/usr/bin/git"; Args := "git" :: args; Dir := dir |}.


(** A repo file with spaces, a carriage return and a blank line. *)
Definition repoFileText : string :=
  "  repoA " ++ byte 13 ++ nl ++ nl ++ byte 9 ++ "repoB" ++ nl.

(** A state of the dispatch loop with three lines under a gate of two:
    two workflows are executing and the main thread waits to send for the
    third. *)
Definition gateFull : Gate.Sys :=
  {| Gate.mainPc := Gate.AtSend "c" [];
     Gate.sem := 2;
     Gate.wg := 3;
     Gate.gos := [("a", Gate.InWorkflow); ("b", Gate.InWorkflow)] |}.

End Toy.

(** ** Runs of the dispatch loop *)

Module Dispatch.
Import Gate.
Local Open Scope list_scope.

(** The lines for which the main thread has not yet spawned a goroutine. *)
Definition todo (pc : MainPc) : list string :=
  match pc with
  | AtLoop rest => rest
  | AtSend line rest => line :: rest
  | AtGo line rest => line :: rest
  | AtWait => []
  | AtExit => []
  end.

(** The statements a goroutine, and the main thread, still have to take. *)
Definition goLeft (pc : GoPc) : nat :=
  match pc with
  | Spawned => 3
  | InWorkflow => 2
  | Releasing => 1
  | Ended => 0
  end.

Definition mainLeft (pc : MainPc) : nat :=
  match pc with
  | AtLoop rest => 6 * List.length rest + 2
  | AtSend _ rest => 6 * List.length rest + 7
  | AtGo _ rest => 6 * List.length rest + 6
  | AtWait => 1
  | AtExit => 0
  end.

Definition left (s : Sys) : nat :=
  mainLeft (mainPc s) + list_sum (map (fun g => goLeft (snd g)) (gos s)).

(** The program has ended: [main] has returned from [wg.Wait()] and every
    goroutine has run its deferred receive. *)
Definition final (s : Sys) : Prop :=
  mainPc s = AtExit /\ Forall (fun g => snd g = Ended) (gos s).

(** A run of [n] statements. *)
Inductive steps (cap : nat) : nat -> Sys -> Sys -> Prop :=
| steps_none s : steps cap 0 s s
| steps_more n s s' s'' :
    steps cap n s s' -> step cap s' s'' -> steps cap (S n) s s''.

End Dispatch.

(** ** Counting bytes *)

Module Bytes.

(** How often a byte occurs in a string. *)
Fixpoint countByte (c : ascii) (s : string) : nat :=
  match s with
  | EmptyString => 0
  | String a r => (if Ascii.eqb a c then 1 else 0) + countByte c r
  end.

End Bytes.
Import Bytes.

(** ** Reading the repo file *)

Module Files.

(** [bufio.MaxScanTokenSize], the longest line a scanner accepts, and
    [bufio.ErrTooLong], its error beyond that. *)
Definition MaxScanTokenSize : nat := 64 * 1024.
Definition ErrTooLong : error := ErrOther "bufio.Scanner: token too long".

Definition newline : ascii := ascii_of_nat 10.

(** [dropCR] of [bufio.ScanLines]: one carriage return at the end of a
    line is dropped. *)
Definition dropCR (data : string) : string := TrimSuffix data (byte 13).

(** The pieces [bufio.ScanLines] cuts a file into: the text between the
    newlines, where an empty piece after the last newline is no line. *)
Definition pieces (content : string) : list string :=
  let ps := Split content newline in
  if last ps "" =? "" then removelast ps else ps.

(** The loop of [readLines] over the pieces, with the scanner's error: a
    piece of [MaxScanTokenSize] bytes or more stops the scan with
    [ErrTooLong], and the lines found before it are returned with the
    error. *)
Fixpoint scanAll (ps : list string) : list string * option error :=
  match ps with
  | [] => ([], None)
  | piece :: rest =>
      if Nat.leb MaxScanTokenSize (String.length piece) then ([], Some ErrTooLong)
      else
        let line := TrimSpace (dropCR piece) in
        let r := scanAll rest in
        (if negb (line =? "") then line :: fst r else fst r, snd r)
  end.

(** What the system answers when the repo file is opened and read:
    [os.Open] fails, or it succeeds and the reads deliver the bytes
    [content] up to the end of the file ([readErr] is [None]) or up to a
    read error, as when the path is a directory. A read of [os.File]
    that fails delivers no byte with its error. *)
Inductive File : Type :=
| NoFile (err : error)
| Bytes (content : string) (readErr : option error).

(** [readLines]. The error of the open is returned with no line. After
    a read error the scanner still cuts the bytes it holds into lines,
    the last one without its newline, and then stops: [scanner.Err()] is
    the read error, unless [ErrTooLong] came first, and the lines found
    are returned with it. *)
Definition readLines (file : File) : list string * option error :=
  match file with
  | NoFile err => ([], Some err)
  | Bytes content readErr =>
      let r := scanAll (pieces content) in
      (fst r, match snd r with
              | Some tooLong => Some tooLong
              | None => readErr
              end)
  end.

(** A line as a repo file should hold it: not empty, without white space
    at its ends, without a newline, and shorter than the scanner's
    limit. *)
Definition cleanLine (l : string) : Prop :=
  l <> "" /\ TrimSpace l = l /\ occurs newline l = false /\
  String.length l < MaxScanTokenSize.

(** A string with no white space at either end. *)
Definition trimmed (s : string) : Prop :=
  find (fun w => prefix w s) spaces = None /\
  find (fun w => HasSuffix s w) spaces = None.

End Files.
Import Files.

(** ** [main] up to the dispatch loop

    [main] from the parsed flags on, with the answers of the system for
    the log file ([os.OpenFile]) and for the repo file. It ends in one of
    three ways: it returns early; it panics in [make(chan struct{},
    *parallel)] when [-parallel] is negative; or it reaches the dispatch
    loop, which is [Gate] with the capacity and the lines given here, the
    workflow of a goroutine being [job] of its line. The channel is
    made after the repo file is read and before the commit message is
    looked for. After the loop and [wg.Wait()] comes [allDone]. The usage
    text, which goes to the standard error stream, is left out. The log
    file is not a path of the host's world: what is written to it is the
    [Log] events of the trace. *)
Module Startup.
Import Common.Notations.

Inductive Mode : Type :=
| CheckoutMode
| PushMode (commitMessage : string).

Inductive Start : Type :=
| Returns
| Panics
| Dispatches (cap : nat) (mode : Mode) (lines : list string).

Section Program.
Context {H : Host}.

(** [main] from [make(chan struct{}, *parallel)] to the loops; this
    part is the same text in the two variants. [make] panics when the
    capacity asked for is negative. *)
Definition fromMake (f : Flags) (lines : list string) : M Start :=
  if (flag_parallel f <? 0)%Z then ret Panics
  else
    let cap := Z.to_nat (flag_parallel f) in
    if flag_checkout f then ret (Dispatches cap CheckoutMode lines)
    else
      match flag_Args f with
      | [] =>
          Printf ("Bitte Commit Message angeben!" ++ nl) ;;
          ret Returns
      | commitMessage :: _ =>
          ret (Dispatches cap (PushMode commitMessage) lines)
      end.

(** [main] from the opening of the log file on; this part too is the
    same text in the two variants. *)
Definition fromLogFile (f : Flags) (logFile : option error) (repoFile : File)
  : M Start :=
  match logFile with
  | Some err =>
      Printf ("Konnte Log-Datei nicht öffnen: " ++ Error err ++ nl) ;;
      ret Returns
  | None =>
      starting ;;
      let r := readLines repoFile in
      match snd r with
      | Some err =>
          Printf ("Fehler beim Lesen der Datei: " ++ Error err ++ nl) ;;
          ret Returns
      | None => fromMake f (fst r)
      end
  end.

End Program.
End Startup.
Import Startup.

(** [main] of [main.go]. *)
Module ProviderURLMain.
Import Common.Notations.
Section Program.
Context {H : Host}.

Definition main (f : Flags) (logFile : option error) (repoFile : File) : M Start :=
  if flag_repo_file f =? "" then
    Printf ("Fehler: Bitte -repo-file angeben!" ++ nl) ;;
    ret Returns
  else if flag_checkout f && (flag_provider_url f =? "") then
    Printf ("Fehler: Bitte -provider-url für Checkout angeben!" ++ nl) ;;
    ret Returns
  else fromLogFile f logFile repoFile.

(** The workflow of a goroutine of the loop. *)
Definition job (f : Flags) (mode : Mode) (line : string) : M Outcome :=
  match mode with
  | CheckoutMode => ProviderURL.checkoutJob f line
  | PushMode commitMessage => pushJob f commitMessage line
  end.

End Program.
End ProviderURLMain.

(** [main] of the second variant. *)
Module DirectURLMain.
Import Common.Notations.
Section Program.
Context {H : Host}.

Definition main (f : Flags) (logFile : option error) (repoFile : File) : M Start :=
  if flag_repo_file f =? "" then
    Printf ("Bitte -repo-file angeben!" ++ nl) ;;
    ret Returns
  else fromLogFile f logFile repoFile.

Definition job (f : Flags) (mode : Mode) (line : string) : M Outcome :=
  match mode with
  | CheckoutMode => DirectURL.checkoutJob f line
  | PushMode commitMessage => pushJob f commitMessage line
  end.

End Program.
End DirectURLMain.

(** ** When a target is skipped *)

Module Decisions.
Section Program.
Context {H : Host}.

(** The answers of the host under which [processRepo] skips a target, for
    each reason. Neither the dry-run switch nor the commit message takes
    part. *)
Inductive skipWhen (repo : string) (allowed : list string) (s : State)
  : SkipReason -> Prop :=
| when_not_repo :
    fst (isGitRepo repo s) = false ->
    skipWhen repo allowed s NotARepository
| when_branch_error out err w1 :
    fst (isGitRepo repo s) = true ->
    start (branchCmd repo) (world s) = ((out, Some err), w1) ->
    skipWhen repo allowed s (BranchCheckFailed err)
| when_not_allowed out w1 :
    fst (isGitRepo repo s) = true ->
    start (branchCmd repo) (world s) = ((out, None), w1) ->
    branchRejected allowed (TrimSpace out) = true ->
    skipWhen repo allowed s (BranchNotAllowed (TrimSpace out))
| when_no_changes out w1 out2 err2 w2 :
    fst (isGitRepo repo s) = true ->
    start (branchCmd repo) (world s) = ((out, None), w1) ->
    branchRejected allowed (TrimSpace out) = false ->
    start (statusCmd repo) w1 = ((out2, err2), w2) ->
    err2 <> None \/ out2 = "" ->
    skipWhen repo allowed s NoChanges.


End Program.
End Decisions.
Import Decisions.

(** ** The commands and lines of the program, written out

    What [exec.Command("git", args...)] with [cmd.Dir = dir] is, what
    [run] prints for it in a dry run, and the events of the pipeline and
    of the clone, with every argument list, directory and line in full.
    The theorems state the workflows against these. *)

Module Expected.
Section Program.
Context {H : Host}.

(** The path [exec.Command] resolves [git] to. *)
Definition gitPath : string :=
  match LookPath "git" with Some p => p | None => "git" end.

(** The process [git args...] run in directory [dir]; the empty [dir]
    is the working directory of the program. *)
Definition gitIn (dir : string) (args : list string) : Cmd :=
  {| Path := gitPath; Args := "git" :: args; Dir := dir |}.

(** The line of a dry run for [git args...]. *)
Definition dryRunLine (args : list string) : string :=
  "[Dry-Run] " ++ gitPath ++ " " ++ Join args " " ++ nl.

(** The events of the pipeline after the Running line, by outcome. *)
Inductive threeSteps (repo msg : string) : bool -> Outcome -> list Event -> Prop :=
| stops_at_add err :
    threeSteps repo msg false (Failed err)
      [Exec (gitIn repo ["add"; "-A"]) (Some err);
       Log ("[" ++ repo ++ "] Fehler: " ++ Error err ++ nl)]
| stops_at_commit err :
    threeSteps repo msg false (Failed err)
      [Exec (gitIn repo ["add"; "-A"]) None;
       Exec (gitIn repo ["commit"; "-m"; msg]) (Some err);
       Log ("[" ++ repo ++ "] Fehler: " ++ Error err ++ nl)]
| stops_at_push err :
    threeSteps repo msg false (Failed err)
      [Exec (gitIn repo ["add"; "-A"]) None;
       Exec (gitIn repo ["commit"; "-m"; msg]) None;
       Exec (gitIn repo ["push"]) (Some err);
       Log ("[" ++ repo ++ "] Fehler: " ++ Error err ++ nl)]
| all_three :
    threeSteps repo msg false Succeeded
      [Exec (gitIn repo ["add"; "-A"]) None;
       Exec (gitIn repo ["commit"; "-m"; msg]) None;
       Exec (gitIn repo ["push"]) None]
| three_previews :
    threeSteps repo msg true Succeeded
      [Print (dryRunLine ["add"; "-A"]);
       Print (dryRunLine ["commit"; "-m"; msg]);
       Print (dryRunLine ["push"])].

(** The arguments of [git] for a clone of [source] into [dir], on
    branch [branch] when one is given. *)
Definition cloneOf (source branch dir : string) : list string :=
  if branch =? "" then ["clone"; source; dir]
  else ["clone"; "-b"; branch; source; dir].

(** The events of a clone handed to the runner in world [w], by
    outcome: the preview or the process, then the line of the log. *)
Inductive cloneRun (source branch dir : string) (w : World)
  : bool -> Outcome -> list Event -> Prop :=
| clone_preview :
    cloneRun source branch dir w true Succeeded
      [Print (dryRunLine (cloneOf source branch dir));
       Log ("[" ++ dir ++ "] Erfolgreich ausgecheckt" ++ nl)]
| clone_passes :
    snd (fst (start (gitIn "" (cloneOf source branch dir)) w)) = None ->
    cloneRun source branch dir w false Succeeded
      [Exec (gitIn "" (cloneOf source branch dir)) None;
       Log ("[" ++ dir ++ "] Erfolgreich ausgecheckt" ++ nl)]
| clone_fails err :
    snd (fst (start (gitIn "" (cloneOf source branch dir)) w)) = Some err ->
    cloneRun source branch dir w false (Failed err)
      [Exec (gitIn "" (cloneOf source branch dir)) (Some err);
       Log ("[" ++ dir ++ "] Checkout Fehler: " ++ Error err ++ nl)].

(** The line of the log for a target that is skipped because its path
    exists. *)
Definition existsLine (dir : string) : string :=
  "[" ++ dir ++ "] Verzeichnis existiert, übersprungen" ++ nl.

End Program.
End Expected.
Import Expected.

(** * Properties *)

(** ** The string functions *)

Section StringFacts.

Lemma Split_nonempty s sep : Split s sep <> [].
Proof.
  destruct s as [|c r]; simpl; [discriminate|].
  destruct (Ascii.eqb c sep); [discriminate|].
  destruct (Split r sep); discriminate.
Qed.

(** Splitting distributes over a separator in the middle. *)
Lemma Split_app p r sep :
  Split (p ++ String sep r) sep = (Split p sep ++ Split r sep)%list.
Proof.
  induction p as [|c p IH]; simpl.
  - now rewrite Ascii.eqb_refl.
  - destruct (Ascii.eqb c sep); [now rewrite IH|].
    rewrite IH. pose proof (Split_nonempty p sep) as Hne.
    destruct (Split p sep) as [|x xs]; [contradiction|reflexivity].
Qed.

Lemma Split_without_sep s sep : occurs sep s = false -> Split s sep = [s].
Proof.
  induction s as [|c r IH]; simpl; intros Hs; [reflexivity|].
  apply orb_false_iff in Hs as [Hc Hr].
  rewrite Hc, (IH Hr). reflexivity.
Qed.

(** Joining the pieces with the separator gives the string back: the
    pieces are the text between the separators, byte for byte. *)
Lemma Join_Split s sep : Join (Split s sep) (String sep "") = s.
Proof.
  unfold Join.
  induction s as [|c r IH]; simpl; [reflexivity|].
  pose proof (Split_nonempty r sep) as Hne.
  destruct (Ascii.eqb_spec c sep) as [->|Hc].
  - destruct (Split r sep) as [|x xs]; [contradiction|].
    simpl in *. now rewrite IH.
  - destruct (Split r sep) as [|x xs]; [contradiction|].
    destruct xs as [|y ys]; simpl in *; now rewrite <- IH.
Qed.

Lemma matchBranch_In allowed branch :
  matchBranch allowed branch = true <-> In branch allowed.
Proof.
  induction allowed as [|b rest IH]; simpl.
  - split; [discriminate|contradiction].
  - destruct (String.eqb_spec b branch) as [->|Hb].
    + split; auto.
    + rewrite IH. split; [auto|]. intros [Heq|Hin]; [contradiction|exact Hin].
Qed.

Lemma matchBranch_app xs ys branch :
  matchBranch (xs ++ ys) branch = matchBranch xs branch || matchBranch ys branch.
Proof.
  induction xs as [|b rest IH]; simpl; [reflexivity|].
  destruct (b =? branch); [reflexivity|exact IH].
Qed.

(** A string with a byte in front is another string. *)
Lemma String_cons_neq c s : (String c s =? s) = false.
Proof.
  apply String.eqb_neq. intros Heq.
  apply (f_equal String.length) in Heq. simpl in Heq. lia.
Qed.

Lemma TrimRight_replicate n c : TrimRight (replicate n c) c = "".
Proof.
  induction n as [|n IH]; simpl; [reflexivity|].
  now rewrite IH, Ascii.eqb_refl.
Qed.

Lemma TrimRight_app_trimmed b t c :
  TrimRight t c = "" -> TrimRight (b ++ t) c = TrimRight b c.
Proof.
  intros Ht. induction b as [|a b IH]; simpl; [exact Ht|now rewrite IH].
Qed.

(** What [TrimRight] returns does not end with the byte cut. *)
Lemma TrimRight_endsWith s c : endsWith c (TrimRight s c) = false.
Proof.
  induction s as [|a r IH]; simpl; [reflexivity|].
  destruct (TrimRight r c) as [|x y] eqn:Hr.
  - destruct (Ascii.eqb a c) eqn:Hac; simpl; [reflexivity|exact Hac].
  - exact IH.
Qed.

Lemma TrimRight_fixed s c : endsWith c s = false -> TrimRight s c = s.
Proof.
  induction s as [|a r IH]; simpl; [reflexivity|].
  destruct r as [|x y].
  - intros ->. reflexivity.
  - intros Hr. now rewrite (IH Hr).
Qed.

Lemma endsWith_occurs c s : occurs c s = false -> endsWith c s = false.
Proof.
  induction s as [|a r IH]; simpl; [reflexivity|].
  intros Hs. apply orb_false_iff in Hs as [Ha Hr].
  destruct r; [exact Ha|exact (IH Hr)].
Qed.

Lemma endsWith_app c p s : s <> "" -> endsWith c (p ++ s) = endsWith c s.
Proof.
  intros Hs. induction p as [|a p IH]; simpl; [reflexivity|].
  destruct (p ++ s) eqn:Hps; [|exact IH].
  destruct p; simpl in Hps; [contradiction|discriminate].
Qed.

(** The base of a path that ends with a separator and a segment is the
    segment. *)
Lemma Base_segment p seg :
  seg <> "" -> occurs "/" seg = false -> Base (p ++ String "/" seg) = seg.
Proof.
  intros Hne Hseg. unfold Base.
  replace (p ++ String "/" seg =? "") with false
    by (symmetry; apply String.eqb_neq; destruct p; discriminate).
  rewrite TrimRight_fixed.
  2:{ rewrite endsWith_app by discriminate. simpl.
      destruct seg; [contradiction|]. now apply (endsWith_occurs "/" (String a seg)). }
  rewrite Split_app, (Split_without_sep seg) by exact Hseg.
  rewrite last_last.
  apply String.eqb_neq in Hne. now rewrite Hne.
Qed.

Lemma length_append (s t : string) :
  String.length (s ++ t) = String.length s + String.length t.
Proof. induction s; simpl; [reflexivity|now f_equal]. Qed.

Lemma substring_all s : substring 0 (String.length s) s = s.
Proof. induction s; simpl; [reflexivity|now f_equal]. Qed.

Lemma substring_app_right s t :
  substring (String.length s) (String.length t) (s ++ t) = t.
Proof. induction s; simpl; [apply substring_all|assumption]. Qed.

Lemma substring_app_left s t :
  substring 0 (String.length s) (s ++ t) = s.
Proof.
  induction s; simpl; [now destruct t|now f_equal].
Qed.

Lemma HasSuffix_app s suffix : HasSuffix (s ++ suffix) suffix = true.
Proof.
  unfold HasSuffix. rewrite length_append.
  replace (String.length s + String.length suffix - String.length suffix)
    with (String.length s) by lia.
  rewrite substring_app_right, String.eqb_refl, andb_true_r.
  apply Nat.leb_le. lia.
Qed.

Lemma TrimSuffix_app s suffix : TrimSuffix (s ++ suffix) suffix = s.
Proof.
  unfold TrimSuffix. rewrite HasSuffix_app, length_append.
  replace (String.length s + String.length suffix - String.length suffix)
    with (String.length s) by lia.
  apply substring_app_left.
Qed.

Lemma occurs_app c s t : occurs c (s ++ t) = occurs c s || occurs c t.
Proof.
  induction s as [|a s IH]; simpl; [reflexivity|].
  now rewrite IH, orb_assoc.
Qed.

End StringFacts.

(** ** The workflows *)

Section Workflows.
Context {H : Host}.

Local Arguments Command : simpl never.
Local Arguments filepath_Join : simpl never.
Local Arguments TrimSpace : simpl never.
Local Arguments preview : simpl never.
Local Arguments String.append : simpl never.
Local Arguments Nat.ltb : simpl never.

Ltac program :=
  unfold processRepo, isGitRepo, getCurrentBranch, hasChanges,
    ProviderURL.checkoutRepo, DirectURL.checkoutRepo,
    run, Run, Output, spawn, Stat, logger_Printf, Printf, emit, bind, ret.

Ltac tidy :=
  cbn [fst snd world trace negb]; rewrite <- ?app_assoc; cbn [app].

(** The command runner: a dry run prints the preview, starts nothing and
    reports success; a real run starts the process and reports its
    error. *)
Lemma run_dry cmd s :
  run cmd true s =
    (None, {| world := world s; trace := (trace s ++ [Print (preview cmd)])%list |}).
Proof. reflexivity. Qed.

Lemma run_real cmd s :
  run cmd false s =
    (snd (fst (start cmd (world s))),
     {| world := snd (start cmd (world s));
        trace := (trace s ++ [Exec cmd (snd (fst (start cmd (world s))))])%list |}).
Proof.
  program. destruct (start cmd (world s)) as [r w']. reflexivity.
Qed.

(** The loop over the three commands. *)
Lemma pipeline_runs repo msg dryRun s :
  exists steps,
    trace (snd (pipeline repo (cmds msg) dryRun s)) = (trace s ++ steps)%list /\
    pipelineRun repo msg dryRun (fst (pipeline repo (cmds msg) dryRun s)) steps.
Proof.
  unfold cmds. cbn [pipeline]. fold (stageCmd repo) (commitCmd repo msg) (pushCmd repo).
  destruct dryRun.
  - unfold bind. rewrite !run_dry. cbn. rewrite <- !app_assoc. cbn.
    eexists; split; [reflexivity|constructor].
  - unfold bind. rewrite run_real.
    destruct (start (stageCmd repo) (world s)) as [[o1 [e1|]] w1]; cbn [fst snd].
    { cbn. rewrite <- !app_assoc. eexists; split; [reflexivity|constructor]. }
    rewrite run_real. cbn [world trace].
    destruct (start (commitCmd repo msg) w1) as [[o2 [e2|]] w2]; cbn [fst snd].
    { cbn. rewrite <- !app_assoc. eexists; split; [reflexivity|constructor]. }
    rewrite run_real. cbn [world trace].
    destruct (start (pushCmd repo) w2) as [[o3 [e3|]] w3]; cbn [fst snd].
    { cbn. rewrite <- !app_assoc. eexists; split; [reflexivity|constructor]. }
    cbn. rewrite <- !app_assoc. eexists; split; [reflexivity|constructor].
Qed.

Lemma added_after s w ev : added s (after s w ev) = ev.
Proof.
  unfold added, after. cbn [trace].
  rewrite skipn_app, skipn_all, Nat.sub_diag. reflexivity.
Qed.

Lemma added_app s s' ev : trace s' = (trace s ++ ev)%list -> added s s' = ev.
Proof.
  intros Ht. unfold added. rewrite Ht.
  rewrite skipn_app, skipn_all, Nat.sub_diag. reflexivity.
Qed.

Lemma length_zero_ltb out : Nat.ltb 0 (String.length out) = false -> out = "".
Proof.
  destruct out; [reflexivity|]. cbn. discriminate.
Qed.

(** Every run of [processRepo] takes one of the five paths. *)
Lemma processRepo_path repo msg allowed dryRun s :
  processRepoPath repo msg allowed dryRun s (processRepo repo msg allowed dryRun s).
Proof.
  pose proof (path_not_repo repo msg allowed dryRun s) as P1.
  pose proof (path_branch_error repo msg allowed dryRun s) as P2.
  pose proof (path_not_allowed repo msg allowed dryRun s) as P3.
  pose proof (path_no_changes repo msg allowed dryRun s) as P4.
  pose proof (path_running repo msg allowed dryRun s) as P5.
  revert P1 P2 P3 P4 P5. unfold after. program. cbn [fst snd world trace].
  destruct (os_Stat (filepath_Join [repo; ".git"]) (world s)) as [[[|]]|e0];
    cbn [negb IsDir]; intros P1 P2 P3 P4 P5; try (apply P1; reflexivity).
  destruct (start (branchCmd repo) (world s)) as [[out [err|]] w1] eqn:Hb; tidy.
  { apply (P2 out); reflexivity. }
  destruct (branchRejected allowed (TrimSpace out)) eqn:Hg; tidy.
  { apply P3; reflexivity || assumption. }
  destruct (start (statusCmd repo) w1) as [[out2 [err2|]] w2] eqn:Hs; tidy.
  { apply (P4 out w1 out2); auto. left; discriminate. }
  destruct (Nat.ltb 0 (String.length out2)) eqn:Hl; tidy.
  - apply (P5 out w1 out2 w2); auto. intros ->. discriminate.
  - apply (P4 out w1 out2); auto. right. now apply length_zero_ltb.
Qed.

Lemma pipelineRun_not_skipped repo msg dryRun o steps :
  pipelineRun repo msg dryRun o steps -> forall reason, o <> Skipped reason.
Proof. intros R reason. destruct R; discriminate. Qed.

Lemma pipeline_not_skipped repo msg dryRun s reason :
  fst (pipeline repo (cmds msg) dryRun s) <> Skipped reason.
Proof.
  destruct (pipeline_runs repo msg dryRun s) as (steps & _ & R).
  now apply (pipelineRun_not_skipped _ _ _ _ _ R).
Qed.

(** Every run of [processRepo] adds the events of one of the five
    shapes. *)
Lemma processRepo_run repo msg allowed dryRun s o s' :
  processRepo repo msg allowed dryRun s = (o, s') ->
  processRepoRun repo msg allowed dryRun o (added s s').
Proof.
  intros Hrun. pose proof (processRepo_path repo msg allowed dryRun s) as P.
  rewrite Hrun in P. inversion P; subst; rewrite ?added_after;
    try (econstructor; eassumption).
  match goal with Hp : _ = pipeline _ _ _ ?st |- _ =>
    destruct (pipeline_runs repo msg dryRun st) as (steps & Ht & R);
    rewrite <- Hp in Ht, R; cbn [fst snd] in Ht, R end.
  unfold after in Ht. cbn [trace] in Ht. rewrite <- app_assoc in Ht.
  rewrite (added_app _ _ _ Ht). econstructor; eassumption.
Qed.

Lemma logged_app t u : logged (t ++ u) = (logged t ++ logged u)%list.
Proof. apply flat_map_app. Qed.

Lemma printed_app t u : printed (t ++ u) = (printed t ++ printed u)%list.
Proof. apply flat_map_app. Qed.

Lemma execs_app t u : execs (t ++ u) = (execs t ++ execs u)%list.
Proof. apply flat_map_app. Qed.

(** X7. The lines a run of [processRepo] sends to the logger, by outcome:
    one line for a skip, which names the skip, the Running line and the
    failure line for a failure, and the Running line alone for a
    success. *)
Lemma processRepo_logged repo msg allowed dryRun s o s' :
  processRepo repo msg allowed dryRun s = (o, s') ->
  match o with
  | Skipped NotARepository => logged (added s s') = [lineNotRepo repo]
  | Skipped (BranchCheckFailed err) => logged (added s s') = [lineBranchCheck repo err]
  | Skipped (BranchNotAllowed branch) => logged (added s s') = [lineNotAllowed repo branch]
  | Skipped NoChanges => logged (added s s') = [lineNoChanges repo]
  | Skipped AlreadyExists => False
  | Failed err =>
      exists branch, logged (added s s') = [lineRunning repo branch; lineFailed repo err]
  | Succeeded =>
      exists branch, logged (added s s') = [lineRunning repo branch]
  end.
Proof.
  intros Hrun. destruct (processRepo_run _ _ _ _ _ _ _ Hrun) as [| | | |branch o steps Hg R];
    try reflexivity.
  destruct R; exists branch; reflexivity.
Qed.

Lemma branchRejected_spec allowed branch :
  branchRejected allowed branch = true <-> allowed <> [] /\ ~ In branch allowed.
Proof.
  unfold branchRejected. rewrite andb_true_iff, negb_true_iff.
  rewrite <- matchBranch_In.
  destruct allowed as [|b rest].
  - cbn. split; [intros [Hd _]; discriminate|intros [Hn _]; contradiction].
  - split; intros [_ Hm]; (split; [try discriminate; reflexivity|]).
    + now rewrite Hm.
    + now destruct (matchBranch (b :: rest) branch).
Qed.

Lemma getCurrentBranch_ok repo s out w :
  start (branchCmd repo) (world s) = ((out, None), w) ->
  fst (getCurrentBranch repo s) = (TrimSpace out, None).
Proof. intros Hb. program. rewrite Hb. reflexivity. Qed.

Lemma getCurrentBranch_error repo s out err w :
  start (branchCmd repo) (world s) = ((out, Some err), w) ->
  fst (getCurrentBranch repo s) = ("", Some err).
Proof. intros Hb. program. rewrite Hb. reflexivity. Qed.


Lemma pipelineRun_execs repo msg dryRun o steps :
  pipelineRun repo msg dryRun o steps ->
  if dryRun then execs steps = []
  else incl (execs steps) [stageCmd repo; commitCmd repo msg; pushCmd repo].
Proof.
  intros R. destruct R; cbn; try reflexivity;
    intros c Hc; cbn in *; tauto.
Qed.

(** The commands the workflows build are [git] with the written
    arguments in the written directory, and the lines they print and log
    are the written lines. *)
Lemma branchCmd_written repo :
  branchCmd repo = gitIn repo ["rev-parse"; "--abbrev-ref"; "HEAD"].
Proof. reflexivity. Qed.

Lemma statusCmd_written repo : statusCmd repo = gitIn repo ["status"; "--porcelain"].
Proof. reflexivity. Qed.

Lemma preview_written dir args : preview (gitIn dir args) = dryRunLine args.
Proof. reflexivity. Qed.

Lemma pipelineRun_written repo msg dryRun o steps :
  pipelineRun repo msg dryRun o steps -> threeSteps repo msg dryRun o steps.
Proof. intros R. destruct R; constructor. Qed.

Lemma cloneCmd_written source branch dir :
  cloneCmd source branch dir = gitIn "" (cloneOf source branch dir).
Proof.
  unfold cloneCmd, cloneArgs, cloneOf. destruct (branch =? ""); reflexivity.
Qed.

(** C1. In commit-and-push mode a target that reaches the Running state
    (its workflow does not end in a skip) has gone through the two probes
    and the line announcing Running, and then runs through the runner, in
    the directory of the target and in this order, [git add -A],
    [git commit -m] with the commit message and [git push]: the events
    that follow are those of [threeSteps], in which the first failing
    step is followed by its log line and by no other step, and no other
    command is run; in a dry run they are the three previews. *)
Theorem processRepo_pipeline_in_order repo msg allowed dryRun s o s' :
  processRepo repo msg allowed dryRun s = (o, s') ->
  (forall reason, o <> Skipped reason) ->
  exists branch steps,
    added s s' =
      ([Exec (gitIn repo ["rev-parse"; "--abbrev-ref"; "HEAD"]) None;
        Exec (gitIn repo ["status"; "--porcelain"]) None;
        Log ("[" ++ repo ++ "] Bearbeite Repo auf Branch '" ++ branch ++ "'" ++ nl)]
       ++ steps)%list /\
    threeSteps repo msg dryRun o steps.
Proof.
  intros Hrun Hns.
  destruct (processRepo_run _ _ _ _ _ _ _ Hrun) as [| | | |branch o steps Hg R];
    try (exfalso; eapply Hns; reflexivity).
  exists branch, steps. split; [reflexivity|now apply pipelineRun_written].
Qed.

(** C3. In commit-and-push mode a target is skipped with the reason
    BranchNotAllowed exactly when it is a repository whose current branch
    is known, the allow list is not empty and the branch is not in it;
    with an empty allow list no target is skipped for its branch. *)
Theorem processRepo_branch_not_allowed repo msg allowed dryRun s :
  (forall branch,
     fst (processRepo repo msg allowed dryRun s) = Skipped (BranchNotAllowed branch)
     <->
     fst (isGitRepo repo s) = true /\
     fst (getCurrentBranch repo s) = (branch, None) /\
     allowed <> [] /\ ~ In branch allowed) /\
  (forall branch,
     fst (processRepo repo msg [] dryRun s) <> Skipped (BranchNotAllowed branch)).
Proof.
  assert (Hiff : forall allowed' branch,
     fst (processRepo repo msg allowed' dryRun s) = Skipped (BranchNotAllowed branch)
     <->
     fst (isGitRepo repo s) = true /\
     fst (getCurrentBranch repo s) = (branch, None) /\
     allowed' <> [] /\ ~ In branch allowed').
  { intros allowed' branch.
    pose proof (processRepo_path repo msg allowed' dryRun s) as P.
    destruct (processRepo repo msg allowed' dryRun s) as [o s'] eqn:Hrun.
    cbn [fst]. split.
    - intros ->. inversion P; subst.
      + split; [assumption|]. split; [eapply getCurrentBranch_ok; eassumption|].
        now apply branchRejected_spec.
      + exfalso.
        match goal with Hp : _ = pipeline _ _ _ ?st |- _ =>
          apply (pipeline_not_skipped repo msg dryRun st (BranchNotAllowed branch));
          now rewrite <- Hp end.
    - intros (Hrepo & Hbranch & Hne & Hnin).
      assert (Hrej : branchRejected allowed' branch = true)
        by now apply branchRejected_spec.
      inversion P; subst;
        try match goal with Hb : start (branchCmd repo) _ = (_, None, _) |- _ =>
          rewrite (getCurrentBranch_ok _ _ _ _ Hb) in Hbranch;
          injection Hbranch as <- end;
        try congruence.
      match goal with Hb : start (branchCmd repo) _ = (_, Some _, _) |- _ =>
        rewrite (getCurrentBranch_error _ _ _ _ _ Hb) in Hbranch end.
      discriminate. }
  split; [exact (Hiff allowed)|].
  intros branch Hskip. apply Hiff in Hskip as (_ & _ & Hne & _). now apply Hne.
Qed.


(** *** Checkout *)

(** The two variants of [checkoutRepo] differ in the clone source only. *)
Lemma checkoutRepo_variants providerURL repoName branch targetDir dryRun :
  ProviderURL.checkoutRepo providerURL repoName branch targetDir dryRun =
  DirectURL.checkoutRepo (ProviderURL.fullURL providerURL repoName) branch targetDir dryRun.
Proof. reflexivity. Qed.

Lemma checkoutRepo_exists url branch dir dryRun s info :
  os_Stat dir (world s) = inl info ->
  DirectURL.checkoutRepo url branch dir dryRun s =
    (Skipped AlreadyExists, after s (world s) [Log (lineExists dir)]).
Proof. intros Hst. program. rewrite Hst. reflexivity. Qed.

Lemma checkoutRepo_previewed url branch dir s e :
  os_Stat dir (world s) = inr e ->
  DirectURL.checkoutRepo url branch dir true s =
    (Succeeded,
     after s (world s) [Print (preview (cloneCmd url branch dir)); Log (lineCloned dir)]).
Proof.
  intros Hst. program. rewrite Hst. unfold after. tidy. reflexivity.
Qed.

Lemma checkoutRepo_cloned url branch dir s e out err w :
  os_Stat dir (world s) = inr e ->
  start (cloneCmd url branch dir) (world s) = ((out, err), w) ->
  DirectURL.checkoutRepo url branch dir false s =
    (match err with Some e' => Failed e' | None => Succeeded end,
     after s w [Exec (cloneCmd url branch dir) err;
                Log match err with
                    | Some e' => lineCloneFailed dir e'
                    | None => lineCloned dir
                    end]).
Proof.
  intros Hst Hcl. program. rewrite Hst, Hcl. unfold after.
  destruct err; tidy; reflexivity.
Qed.

(** A target whose path is not found: the clone goes to the runner. *)
Lemma checkoutRepo_cloneRun url branch dir dryRun s e :
  os_Stat dir (world s) = inr e ->
  cloneRun url branch dir (world s) dryRun
    (fst (DirectURL.checkoutRepo url branch dir dryRun s))
    (added s (snd (DirectURL.checkoutRepo url branch dir dryRun s))).
Proof.
  intros Hst. destruct dryRun.
  - rewrite (checkoutRepo_previewed _ _ _ _ _ Hst). cbn [fst snd].
    rewrite added_after, cloneCmd_written, preview_written. constructor.
  - destruct (start (cloneCmd url branch dir) (world s)) as [[out err] w] eqn:Hcl.
    rewrite (checkoutRepo_cloned _ _ _ _ _ _ _ _ Hst Hcl). cbn [fst snd].
    rewrite added_after. rewrite cloneCmd_written in Hcl |- *.
    destruct err as [err|]; constructor; now rewrite Hcl.
Qed.

Lemma checkoutRepo_skips url branch dir dryRun s info :
  os_Stat dir (world s) = inl info ->
  DirectURL.checkoutRepo url branch dir dryRun s =
    (Skipped AlreadyExists, after s (world s) [Log (existsLine dir)]).
Proof. apply checkoutRepo_exists. Qed.

(** The source [checkoutRepo] of [main.go] composes, written out. *)
Lemma fullURL_written providerURL repoName :
  ProviderURL.fullURL providerURL repoName =
    TrimRight providerURL "/" ++ "/" ++ repoName ++ ".git".
Proof. reflexivity. Qed.

(** C10. In checkout mode the already-exists test is the success of
    [os.Stat] alone. Whatever [os.Stat] finds at the target path, a
    directory or a regular file, the target is skipped as AlreadyExists
    with the line of the skip and nothing is run; whatever error
    [os.Stat] returns, a missing path or a refused permission alike, the
    clone is handed to the runner: a real run starts the process
    [git clone] (with [-b] and the branch when one is given) of the
    source into the target directory and logs how it ended, a dry run
    prints its preview. Both variants behave so; in [main.go] the source
    is composed from the provider URL and the name. *)
Theorem checkoutRepo_bare_stat providerURL name source branch dir dryRun s :
  (forall isDir,
     os_Stat dir (world s) = inl {| IsDir := isDir |} ->
     ProviderURL.checkoutRepo providerURL name branch dir dryRun s =
       (Skipped AlreadyExists,
        after s (world s)
          [Log ("[" ++ dir ++ "] Verzeichnis existiert, übersprungen" ++ nl)]) /\
     DirectURL.checkoutRepo source branch dir dryRun s =
       (Skipped AlreadyExists,
        after s (world s)
          [Log ("[" ++ dir ++ "] Verzeichnis existiert, übersprungen" ++ nl)])) /\
  (forall e,
     os_Stat dir (world s) = inr e ->
     cloneRun (TrimRight providerURL "/" ++ "/" ++ name ++ ".git") branch dir
       (world s) dryRun
       (fst (ProviderURL.checkoutRepo providerURL name branch dir dryRun s))
       (added s (snd (ProviderURL.checkoutRepo providerURL name branch dir dryRun s))) /\
     cloneRun source branch dir (world s) dryRun
       (fst (DirectURL.checkoutRepo source branch dir dryRun s))
       (added s (snd (DirectURL.checkoutRepo source branch dir dryRun s)))).
Proof.
  split.
  - intros isDir Hst. rewrite checkoutRepo_variants.
    now rewrite !(checkoutRepo_skips _ _ _ _ _ _ Hst).
  - intros e Hst. rewrite checkoutRepo_variants, fullURL_written.
    split; exact (checkoutRepo_cloneRun _ _ _ _ _ _ Hst).
Qed.

(** C5, as amended. In checkout mode a target whose directory exists is
    skipped as AlreadyExists: nothing is run and the disk is left as it
    was, so that the existing checkout is not overwritten, and the
    workflow run again on what it left skips again. A target whose
    directory is not found is not skipped: after a dry run, which leaves
    the disk as it was, and after a clone that failed and left no
    directory, the workflow run again hands the clone to the runner
    again. Both variants behave so. *)
Theorem checkout_existing_targets_skipped providerURL name source branch dir s :
  (forall info dryRun,
     os_Stat dir (world s) = inl info ->
     ProviderURL.checkoutRepo providerURL name branch dir dryRun s =
       (Skipped AlreadyExists, after s (world s) [Log (existsLine dir)]) /\
     DirectURL.checkoutRepo source branch dir dryRun s =
       (Skipped AlreadyExists, after s (world s) [Log (existsLine dir)]) /\
     forall again,
       ProviderURL.checkoutRepo providerURL name branch dir again
         (after s (world s) [Log (existsLine dir)]) =
         (Skipped AlreadyExists,
          after s (world s) [Log (existsLine dir); Log (existsLine dir)]) /\
       DirectURL.checkoutRepo source branch dir again
         (after s (world s) [Log (existsLine dir)]) =
         (Skipped AlreadyExists,
          after s (world s) [Log (existsLine dir); Log (existsLine dir)])) /\
  (forall e again,
     os_Stat dir (world s) = inr e ->
     (fst (ProviderURL.checkoutRepo providerURL name branch dir true s) = Succeeded /\
      world (snd (ProviderURL.checkoutRepo providerURL name branch dir true s)) = world s /\
      cloneRun (TrimRight providerURL "/" ++ "/" ++ name ++ ".git") branch dir
        (world s) again
        (fst (ProviderURL.checkoutRepo providerURL name branch dir again
                (snd (ProviderURL.checkoutRepo providerURL name branch dir true s))))
        (added (snd (ProviderURL.checkoutRepo providerURL name branch dir true s))
           (snd (ProviderURL.checkoutRepo providerURL name branch dir again
                   (snd (ProviderURL.checkoutRepo providerURL name branch dir true s)))))) /\
     (fst (DirectURL.checkoutRepo source branch dir true s) = Succeeded /\
      world (snd (DirectURL.checkoutRepo source branch dir true s)) = world s /\
      cloneRun source branch dir (world s) again
        (fst (DirectURL.checkoutRepo source branch dir again
                (snd (DirectURL.checkoutRepo source branch dir true s))))
        (added (snd (DirectURL.checkoutRepo source branch dir true s))
           (snd (DirectURL.checkoutRepo source branch dir again
                   (snd (DirectURL.checkoutRepo source branch dir true s))))))) /\
  (forall e err e' again,
     os_Stat dir (world s) = inr e ->
     (fst (ProviderURL.checkoutRepo providerURL name branch dir false s) = Failed err ->
      os_Stat dir
        (world (snd (ProviderURL.checkoutRepo providerURL name branch dir false s))) =
        inr e' ->
      cloneRun (TrimRight providerURL "/" ++ "/" ++ name ++ ".git") branch dir
        (world (snd (ProviderURL.checkoutRepo providerURL name branch dir false s))) again
        (fst (ProviderURL.checkoutRepo providerURL name branch dir again
                (snd (ProviderURL.checkoutRepo providerURL name branch dir false s))))
        (added (snd (ProviderURL.checkoutRepo providerURL name branch dir false s))
           (snd (ProviderURL.checkoutRepo providerURL name branch dir again
                   (snd (ProviderURL.checkoutRepo providerURL name branch dir false s)))))) /\
     (fst (DirectURL.checkoutRepo source branch dir false s) = Failed err ->
      os_Stat dir (world (snd (DirectURL.checkoutRepo source branch dir false s))) =
        inr e' ->
      cloneRun source branch dir
        (world (snd (DirectURL.checkoutRepo source branch dir false s))) again
        (fst (DirectURL.checkoutRepo source branch dir again
                (snd (DirectURL.checkoutRepo source branch dir false s))))
        (added (snd (DirectURL.checkoutRepo source branch dir false s))
           (snd (DirectURL.checkoutRepo source branch dir again
                   (snd (DirectURL.checkoutRepo source branch dir false s))))))).
Proof.
  assert (Hskip : forall url info dryRun,
            os_Stat dir (world s) = inl info ->
            DirectURL.checkoutRepo url branch dir dryRun s =
              (Skipped AlreadyExists, after s (world s) [Log (existsLine dir)]) /\
            forall again,
              DirectURL.checkoutRepo url branch dir again
                (after s (world s) [Log (existsLine dir)]) =
                (Skipped AlreadyExists,
                 after s (world s) [Log (existsLine dir); Log (existsLine dir)])).
  { intros url info dryRun Hst. split; [exact (checkoutRepo_skips _ _ _ _ _ _ Hst)|].
    intros again.
    rewrite (checkoutRepo_skips url branch dir again
               (after s (world s) [Log (existsLine dir)]) info Hst).
    unfold after. cbn [world trace]. now rewrite <- app_assoc. }
  assert (Hdry : forall url e again,
            os_Stat dir (world s) = inr e ->
            fst (DirectURL.checkoutRepo url branch dir true s) = Succeeded /\
            world (snd (DirectURL.checkoutRepo url branch dir true s)) = world s /\
            cloneRun url branch dir (world s) again
              (fst (DirectURL.checkoutRepo url branch dir again
                      (snd (DirectURL.checkoutRepo url branch dir true s))))
              (added (snd (DirectURL.checkoutRepo url branch dir true s))
                 (snd (DirectURL.checkoutRepo url branch dir again
                         (snd (DirectURL.checkoutRepo url branch dir true s)))))).
  { intros url e again Hst.
    rewrite (checkoutRepo_previewed _ _ _ _ _ Hst). cbn [fst snd].
    split; [reflexivity|]. split; [reflexivity|].
    exact (checkoutRepo_cloneRun url branch dir again
             (after s (world s) [Print (preview (cloneCmd url branch dir));
                                 Log (lineCloned dir)]) e Hst). }
  split; [|split].
  - intros info dryRun Hst. rewrite !checkoutRepo_variants.
    destruct (Hskip (ProviderURL.fullURL providerURL name) info dryRun Hst) as [P1 P2].
    destruct (Hskip source info dryRun Hst) as [D1 D2].
    split; [exact P1|]. split; [exact D1|]. intros again. split; [apply P2|apply D2].
  - intros e again Hst. rewrite !checkoutRepo_variants.
    split; [exact (Hdry (ProviderURL.fullURL providerURL name) e again Hst)
           |exact (Hdry source e again Hst)].
  - intros e err e' again Hst. rewrite !checkoutRepo_variants.
    split; intros _ Hst'; exact (checkoutRepo_cloneRun _ _ _ _ _ _ Hst').
Qed.

Lemma append_associative (a b c : string) : (a ++ b) ++ c = a ++ b ++ c.
Proof.
  induction a as [|x a IH]; [reflexivity|].
  change (String x ((a ++ b) ++ c) = String x (a ++ b ++ c)). now rewrite IH.
Qed.

(** C6, as amended. With a provider base URL, the clone source is the
    base with all its trailing separators removed, then one separator,
    the repository name as it stands and [.git], whatever the number of
    separators the base ends with; the separators a name begins with are
    kept, so that one separator stands between base and name exactly when
    the name begins with none. The base of the example gives the URL of
    the example. The checkout job of [main.go] hands to the runner
    [git clone] of this source into the directory named like the
    repository. In the variant without a provider URL the job hands to
    the runner [git clone] of the line itself into the base of the line
    with one [.git] suffix removed, which for a line ending in a separator
    and a segment is that segment without its [.git]. *)
Theorem clone_source_and_directory (f : Flags) (line : string) s :
  (forall base j,
     ProviderURL.fullURL (base ++ replicate j "/") line =
       TrimRight base "/" ++ "/" ++ line ++ ".git" /\
     endsWith "/" (TrimRight base "/") = false) /\
  (forall base j k rest,
     ProviderURL.fullURL (base ++ replicate j "/") (replicate k "/" ++ rest) =
       TrimRight base "/" ++ replicate (S k) "/" ++ rest ++ ".git") /\
  ProviderURL.fullURL "https://example.org/org" "teamrepo" =
    "https://example.org/org/teamrepo.git" /\
  (forall e,
     os_Stat line (world s) = inr e ->
     cloneRun (TrimRight (flag_provider_url f) "/" ++ "/" ++ line ++ ".git") "" line
       (world s) (flag_dry f)
       (fst (ProviderURL.checkoutJob f line s))
       (added s (snd (ProviderURL.checkoutJob f line s)))) /\
  (forall source dir, cloneOf source "" dir = ["clone"; source; dir]) /\
  (forall e,
     os_Stat (TrimSuffix (Base line) ".git") (world s) = inr e ->
     cloneRun line "" (TrimSuffix (Base line) ".git") (world s) (flag_dry f)
       (fst (DirectURL.checkoutJob f line s))
       (added s (snd (DirectURL.checkoutJob f line s)))) /\
  DirectURL.targetDir line = TrimSuffix (Base line) ".git" /\
  (forall p seg,
     seg <> "" -> occurs "/" seg = false ->
     DirectURL.targetDir (p ++ "/" ++ seg ++ ".git") = seg /\
     (HasSuffix seg ".git" = false -> DirectURL.targetDir (p ++ "/" ++ seg) = seg)).
Proof.
  assert (Hbase : forall base j name,
            ProviderURL.fullURL (base ++ replicate j "/") name =
              TrimRight base "/" ++ "/" ++ name ++ ".git").
  { intros base j name. unfold ProviderURL.fullURL.
    now rewrite TrimRight_app_trimmed by apply TrimRight_replicate. }
  split; [|split; [|split; [|split; [|split; [|split; [|split]]]]]].
  - intros base j. split; [apply Hbase|apply TrimRight_endsWith].
  - intros base j k rest. rewrite Hbase, append_associative. reflexivity.
  - reflexivity.
  - intros e Hst. unfold ProviderURL.checkoutJob. cbv zeta.
    rewrite checkoutRepo_variants, fullURL_written.
    exact (checkoutRepo_cloneRun _ _ _ _ _ _ Hst).
  - reflexivity.
  - intros e Hst. exact (checkoutRepo_cloneRun _ _ _ _ _ _ Hst).
  - reflexivity.
  - intros p seg Hne Hseg. split.
    + unfold DirectURL.targetDir.
      change (p ++ "/" ++ seg ++ ".git") with (p ++ String "/" (seg ++ ".git")).
      rewrite Base_segment.
      * apply TrimSuffix_app.
      * destruct seg; [contradiction|discriminate].
      * rewrite occurs_app. now rewrite Hseg.
    + intros Hsuf. unfold DirectURL.targetDir.
      change (p ++ "/" ++ seg) with (p ++ String "/" seg).
      rewrite Base_segment by assumption.
      unfold TrimSuffix. now rewrite Hsuf.
Qed.


End Workflows.

(** ** The gate *)

Section GateFacts.
Import Gate.
Local Open Scope list_scope.

Lemma count_app p g h : count p (g ++ h) = count p g + count p h.
Proof. unfold count. now rewrite filter_app, List.length_app. Qed.

Lemma count_cons p x g :
  count p (x :: g) = (if p (snd x) then 1 else 0) + count p g.
Proof. unfold count. cbn. now destruct (p (snd x)). Qed.

(** A goroutine that moves from [pc] to [pc'] changes a count by the
    difference of the two. *)
Lemma count_move p before after line pc pc' :
  count p (before ++ (line, pc') :: after) + (if p pc then 1 else 0) =
  count p (before ++ (line, pc) :: after) + (if p pc' then 1 else 0).
Proof. rewrite !count_app, !count_cons. cbn [snd]. lia. Qed.

Lemma invariant_init cap lines : invariant cap (init lines).
Proof. unfold invariant, held, pending, init, count. cbn. lia. Qed.

Lemma invariant_step cap s s' : invariant cap s -> step cap s s' -> invariant cap s'.
Proof.
  unfold invariant, held, pending.
  intros (Hsem & Hcap & Hwg) Hstep.
  destruct Hstep as
    [line rest s Hpc | line rest s Hpc Hfree | line rest s Hpc | s Hpc | s Hpc Hz
    | line before after s Hg | line before after s Hg | line before after s n Hg Hn];
    cbn [mainPc sem wg gos];
    try rewrite Hpc in *; try rewrite Hg in *.
  - lia.
  - lia.
  - rewrite !count_app, !count_cons. cbn. lia.
  - lia.
  - lia.
  - pose proof (count_move holdsSlot before after line Spawned InWorkflow) as M1.
    pose proof (count_move notReturned before after line Spawned InWorkflow) as M2.
    cbn in M1, M2. lia.
  - pose proof (count_move holdsSlot before after line InWorkflow Releasing) as M1.
    pose proof (count_move notReturned before after line InWorkflow Releasing) as M2.
    cbn in M1, M2. lia.
  - pose proof (count_move holdsSlot before after line Releasing Ended) as M1.
    pose proof (count_move notReturned before after line Releasing Ended) as M2.
    cbn in M1, M2. lia.
Qed.

Lemma invariant_reachable cap lines s : reachable cap lines s -> invariant cap s.
Proof.
  induction 1 as [|s s' _ IH Hstep]; [apply invariant_init|].
  exact (invariant_step _ _ _ IH Hstep).
Qed.

Lemma active_le_held s : active s <= held s.
Proof.
  unfold active, held, count.
  induction (gos s) as [|[line pc] g IH]; cbn; [lia|].
  destruct pc; cbn in *; lia.
Qed.

(** C8. In every state that the dispatch loop can reach, whatever the
    list of lines and the capacity of the gate, the workflows that are
    executing are at most as many as the capacity. The channel holds one
    element for every goroutine that was dispatched and has not yet run
    its deferred receive, so a slot is taken before the workflow of
    a goroutine starts and given back only after that workflow has
    returned; and the counter of the wait group is the number of jobs
    added and not yet done. *)
Theorem gate_bounds_active_workflows cap lines s :
  reachable cap lines s ->
  active s <= cap /\ sem s = held s /\ active s <= sem s /\ wg s = pending s.
Proof.
  intros Hr. destruct (invariant_reachable _ _ _ Hr) as (Hsem & Hcap & Hwg).
  pose proof (active_le_held s). repeat split; lia.
Qed.

End GateFacts.

(** ** The allow list *)

Section AllowList.

Lemma allowedBranches_spaced before branch :
  occurs "," branch = false ->
  allowedBranches (before ++ ", " ++ branch) =
    (Split before "," ++ [String " " branch])%list.
Proof.
  intros Hb. unfold allowedBranches.
  replace (before ++ ", " ++ branch =? "") with false
    by (symmetry; apply String.eqb_neq; destruct before; discriminate).
  cbn [negb].
  change (before ++ ", " ++ branch) with (before ++ String "," (String " " branch)).
  rewrite Split_app. f_equal.
  apply Split_without_sep. cbn. exact Hb.
Qed.

(** C9. The allow list is the [-branch] flag split at its commas and
    nothing else: joining the entries with commas gives the flag back, so
    no entry is trimmed. The search compares each entry with the current
    branch by string equality, so a branch is matched exactly when it is
    an entry. Hence in a flag that ends with a comma, a space and a
    branch name, the last entry is the name with the space in front,
    which does not match the name: whether the branch is allowed depends
    on the entries before only. For the flag [main, develop] the entries
    are [main] and [ develop], and the branch [develop] is rejected. *)
Theorem allow_list_entries_are_not_trimmed :
  (forall branches, Join (Split branches ",") "," = branches) /\
  (forall branches,
     allowedBranches branches = if branches =? "" then [] else Split branches ",") /\
  (forall allowed branch, matchBranch allowed branch = true <-> In branch allowed) /\
  (forall before branch,
     occurs "," branch = false ->
     allowedBranches (before ++ ", " ++ branch) =
       (Split before "," ++ [String " " branch])%list /\
     matchBranch [String " " branch] branch = false /\
     matchBranch (allowedBranches (before ++ ", " ++ branch)) branch =
       matchBranch (Split before ",") branch) /\
  allowedBranches "main, develop" = ["main"; " develop"] /\
  branchRejected (allowedBranches "main, develop") "develop" = true.
Proof.
  split; [|split; [|split; [|split; [|split]]]].
  - intros branches. apply Join_Split.
  - intros branches. unfold allowedBranches. now destruct (branches =? "").
  - apply matchBranch_In.
  - intros before branch Hb.
    assert (Hlast : matchBranch [String " " branch] branch = false).
    { cbn [matchBranch]. now rewrite String_cons_neq. }
    split; [now apply allowedBranches_spaced|]. split; [exact Hlast|].
    rewrite allowedBranches_spaced by exact Hb.
    now rewrite matchBranch_app, Hlast, orb_false_r.
  - reflexivity.
  - reflexivity.
Qed.

End AllowList.

(** ** Runs on the small host *)

Section Runs.
Import Toy.

(** Scenario A: [repoA] runs stage, commit and push in order, [repoB] is
    not a repository. *)
Example scenario_A :
  let f := flags false false "main" "" ["sync"] in
  let a := pushJob f "sync" "repoA" (boot disk) in
  let b := pushJob f "sync" "repoB" (boot disk) in
  fst a = Succeeded /\
  execs (trace (snd a)) =
    [git_ ["rev-parse"; "--abbrev-ref"; "HEAD"] "repoA";
     git_ ["status"; "--porcelain"] "repoA";
     git_ ["add"; "-A"] "repoA";
     git_ ["commit"; "-m"; "sync"] "repoA";
     git_ ["push"] "repoA"] /\
  fst b = Skipped NotARepository /\
  execs (trace (snd b)) = [].
Proof. vm_compute. repeat split; reflexivity. Qed.

(** Scenario B: a branch outside the allow list. *)
Example scenario_B :
  let r := processRepo "repoA" "sync" (allowedBranches "feature-x") false (boot disk) in
  fst r = Skipped (BranchNotAllowed "main") /\
  execs (trace (snd r)) = [git_ ["rev-parse"; "--abbrev-ref"; "HEAD"] "repoA"].
Proof. vm_compute. split; reflexivity. Qed.

(** Scenario C: the clone of the example. *)
Example scenario_C :
  let r := ProviderURL.checkoutJob (flags false true "" "https://example.org/org" [])
             "teamrepo" (boot disk) in
  fst r = Succeeded /\
  execs (trace (snd r)) =
    [git_ ["clone"; "https://example.org/org/teamrepo.git"; "teamrepo"] ""].
Proof. vm_compute. split; reflexivity. Qed.

(** Scenario D: an existing directory, and an existing regular file. *)
Example scenario_D :
  let f := flags false true "" "https://example.org/org" [] in
  let a := ProviderURL.checkoutJob f "repoB" (boot disk) in
  let b := ProviderURL.checkoutJob f "notes.txt" (boot disk) in
  fst a = Skipped AlreadyExists /\ execs (trace (snd a)) = [] /\
  fst b = Skipped AlreadyExists /\ execs (trace (snd b)) = [].
Proof. vm_compute. repeat split; reflexivity. Qed.

(** The start of [main] on a repo file of two lines: the loop is
    entered with the default capacity and the two targets. With a
    negative capacity [main] panics, also where the commit message is
    missing; with none it stops at the missing message. *)
Example main_reaches_the_loop :
  fst (ProviderURLMain.main (flags false true "" "https://example.org/org" [])
         None (Bytes repoFileText None) (boot disk))
  = Dispatches 8 CheckoutMode ["repoA"; "repoB"].
Proof. vm_compute. reflexivity. Qed.

(** The workflow of the goroutine for the line [repoB] of that loop. *)
Example job_of_repoB :
  fst (ProviderURLMain.job (flags false true "" "https://example.org/org" [])
         CheckoutMode "repoB" (boot disk))
  = Skipped AlreadyExists.
Proof. vm_compute. reflexivity. Qed.

(** With [-parallel 0] the loop is entered with a channel of capacity
    zero. *)
Example main_with_capacity_zero :
  let f := {| flag_dry := false; flag_branch := ""; flag_repo_file := "repos.txt";
              flag_parallel := 0%Z; flag_checkout := false;
              flag_provider_url := ""; flag_Args := ["sync"] |} in
  fst (ProviderURLMain.main f None (Bytes repoFileText None) (boot disk))
  = Dispatches 0 (PushMode "sync") ["repoA"; "repoB"].
Proof. vm_compute. reflexivity. Qed.

(** After the loop and [wg.Wait()]: the closing line of the log, then
    the notice on the standard output. *)
Example main_after_the_loop :
  allDone (boot disk) =
    (tt, after (boot disk) disk [Log ("=== Alle Jobs fertig ===" ++ nl);
                                 Print ("Alle Jobs fertig!" ++ nl)]).
Proof. reflexivity. Qed.

Example main_panics_in_make :
  let f := {| flag_dry := false; flag_branch := ""; flag_repo_file := "repos.txt";
              flag_parallel := (-1)%Z; flag_checkout := false;
              flag_provider_url := ""; flag_Args := [] |} in
  let r := ProviderURLMain.main f None (Bytes repoFileText None) (boot disk) in
  fst r = Panics /\ printed (trace (snd r)) = [] /\
  fst (DirectURLMain.main f None (Bytes repoFileText None) (boot disk)) = Panics.
Proof. vm_compute. repeat split; reflexivity. Qed.

(** A commit that fails stops the pipeline: no push. *)
Example commit_failure_stops :
  let r := processRepo "repoA" "sync" [] false (boot brokenCommit) in
  fst r = Failed (ExitError 1) /\
  added (boot brokenCommit) (snd r) =
    [Exec (git_ ["rev-parse"; "--abbrev-ref"; "HEAD"] "repoA") None;
     Exec (git_ ["status"; "--porcelain"] "repoA") None;
     Log (lineRunning "repoA" "main");
     Exec (git_ ["add"; "-A"] "repoA") None;
     Exec (git_ ["commit"; "-m"; "sync"] "repoA") (Some (ExitError 1));
     Log (lineFailed "repoA" (ExitError 1))].
Proof. vm_compute. split; reflexivity. Qed.

(** With the flag [main, develop] a repository on [develop] is
    rejected. *)
Example spaced_flag_rejects_develop :
  let d := {| paths := paths disk; denied := denied disk;
              branches := [("repoA", "develop")];
              dirty := dirty disk; failing := [] |} in
  fst (processRepo "repoA" "sync" (allowedBranches "main, develop") false (boot d))
  = Skipped (BranchNotAllowed "develop").
Proof. vm_compute. reflexivity. Qed.

(** A real run followed by a second run: the second run skips. *)
Example second_real_run_skips :
  let f := flags false true "" "https://example.org/org" [] in
  let r1 := ProviderURL.checkoutJob f "teamrepo" (boot disk) in
  let r2 := ProviderURL.checkoutJob f "teamrepo" (snd r1) in
  fst r1 = Succeeded /\ fst r2 = Skipped AlreadyExists.
Proof. vm_compute. split; reflexivity. Qed.

(** The checkout workflow logs its success. *)
Example checkout_logs_success :
  logged (trace (snd (ProviderURL.checkoutRepo "https://example.org/org" "teamrepo" ""
                        "teamrepo" false (boot disk))))
  = [lineCloned "teamrepo"].
Proof. vm_compute. reflexivity. Qed.

End Runs.

(** ** The claims on the small host *)

Section Claims.
Import Toy.

(** On [repoA] the three steps pass in order. *)
Lemma processRepo_pipeline_in_order_witness :
  exists branch steps,
    added (boot disk) (snd (processRepo "repoA" "sync" ["main"] false (boot disk))) =
      ([Exec (gitIn "repoA" ["rev-parse"; "--abbrev-ref"; "HEAD"]) None;
        Exec (gitIn "repoA" ["status"; "--porcelain"]) None;
        Log ("[" ++ "repoA" ++ "] Bearbeite Repo auf Branch '" ++ branch ++ "'" ++ nl)]
       ++ steps)%list /\
    threeSteps "repoA" "sync" false Succeeded steps.
Proof.
  refine (processRepo_pipeline_in_order "repoA" "sync" ["main"] false (boot disk)
            Succeeded (snd (processRepo "repoA" "sync" ["main"] false (boot disk))) _ _).
  - vm_compute. reflexivity.
  - intros reason. discriminate.
Defined.

(** The run on [repoA], event by event. *)
Example pipeline_on_repoA :
  added (boot disk) (snd (processRepo "repoA" "sync" ["main"] false (boot disk))) =
    [Exec (git_ ["rev-parse"; "--abbrev-ref"; "HEAD"] "repoA") None;
     Exec (git_ ["status"; "--porcelain"] "repoA") None;
     Log ("[repoA] Bearbeite Repo auf Branch 'main'" ++ nl);
     Exec (git_ ["add"; "-A"] "repoA") None;
     Exec (git_ ["commit"; "-m"; "sync"] "repoA") None;
     Exec (git_ ["push"] "repoA") None].
Proof. vm_compute. reflexivity. Qed.

(** C2. On a repository with pending changes whose three steps all pass,
    [processRepo] ends as Succeeded and the logger has received the
    Running line alone: no line records the success. *)
Lemma processRepo_success_without_audit_line :
  let r := processRepo "repoA" "sync" ["main"] false (boot disk) in
  fst r = Succeeded /\
  logged (trace (snd r)) = [lineRunning "repoA" "main"].
Proof. vm_compute. split; reflexivity. Qed.


(** C5 fails as stated: the batch of the one target [teamrepo], run
    twice. After a dry run, and after a real run whose clone failed, the
    second run does not treat the target as AlreadyExists: it hands the
    clone to the runner again. *)
Lemma second_run_clones_again :
  (let f := flags true true "" "https://example.org/org" [] in
   let r1 := ProviderURL.checkoutJob f "teamrepo" (boot disk) in
   let r2 := ProviderURL.checkoutJob f "teamrepo" (snd r1) in
   fst r1 = Succeeded /\ fst r2 = Succeeded /\
   fst r2 <> Skipped AlreadyExists /\
   printed (added (snd r1) (snd r2)) =
     ["[Dry-Run] /usr/bin/git clone https://example.org/org/teamrepo.git teamrepo" ++ nl]) /\
  (let f := flags false true "" "https://example.org/org" [] in
   let r1 := ProviderURL.checkoutJob f "teamrepo" (boot brokenClone) in
   let r2 := ProviderURL.checkoutJob f "teamrepo" (snd r1) in
   fst r1 = Failed (ExitError 1) /\ fst r2 = Failed (ExitError 1) /\
   fst r2 <> Skipped AlreadyExists /\
   execs (added (snd r1) (snd r2)) =
     [git_ ["clone"; "https://example.org/org/teamrepo.git"; "teamrepo"] ""]).
Proof.
  vm_compute. repeat split; discriminate.
Qed.

(** An existing regular file is skipped, and skipped again; the missing
    [teamrepo] is cloned again after a dry run. *)
Lemma checkout_existing_targets_skipped_witness :
  (forall again,
     ProviderURL.checkoutRepo "https://example.org/org" "notes.txt" "" "notes.txt" again
       (after (boot disk) disk [Log (existsLine "notes.txt")]) =
       (Skipped AlreadyExists,
        after (boot disk) disk
          [Log (existsLine "notes.txt"); Log (existsLine "notes.txt")])) /\
  cloneRun "https://example.org/org/teamrepo.git" "" "teamrepo" disk false
    (fst (ProviderURL.checkoutRepo "https://example.org/org" "teamrepo" "" "teamrepo" false
            (snd (ProviderURL.checkoutRepo "https://example.org/org" "teamrepo" ""
                    "teamrepo" true (boot disk)))))
    (added (snd (ProviderURL.checkoutRepo "https://example.org/org" "teamrepo" ""
                   "teamrepo" true (boot disk)))
       (snd (ProviderURL.checkoutRepo "https://example.org/org" "teamrepo" "" "teamrepo"
               false
               (snd (ProviderURL.checkoutRepo "https://example.org/org" "teamrepo" ""
                       "teamrepo" true (boot disk)))))).
Proof.
  split.
  - intros again.
    destruct (proj1 (checkout_existing_targets_skipped "https://example.org/org"
                       "notes.txt" "" "" "notes.txt" (boot disk))
                {| IsDir := false |} false ltac:(vm_compute; reflexivity))
      as (_ & _ & Hagain).
    exact (proj1 (Hagain again)).
  - destruct (proj1 (proj2 (checkout_existing_targets_skipped "https://example.org/org"
                              "teamrepo" "" "" "teamrepo" (boot disk)))
                (ErrNotExist "stat" "teamrepo") false ltac:(vm_compute; reflexivity))
      as ((_ & _ & Hrun) & _).
    exact Hrun.
Defined.

(** The state [gateFull] is reached. *)
Lemma gateFull_reachable : Gate.reachable 2 ["a"; "b"; "c"] gateFull.
Proof.
  pose (mk := fun pc n w g => {| Gate.mainPc := pc; Gate.sem := n; Gate.wg := w;
                                 Gate.gos := g |}).
  pose (s1 := mk (Gate.AtSend "a" ["b"; "c"]) 0 1 []).
  pose (s2 := mk (Gate.AtGo "a" ["b"; "c"]) 1 1 []).
  pose (s3 := mk (Gate.AtLoop ["b"; "c"]) 1 1 [("a", Gate.Spawned)]).
  pose (s4 := mk (Gate.AtSend "b" ["c"]) 1 2 [("a", Gate.Spawned)]).
  pose (s5 := mk (Gate.AtGo "b" ["c"]) 2 2 [("a", Gate.Spawned)]).
  pose (s6 := mk (Gate.AtLoop ["c"]) 2 2 [("a", Gate.Spawned); ("b", Gate.Spawned)]).
  pose (s7 := mk (Gate.AtLoop ["c"]) 2 2 [("a", Gate.InWorkflow); ("b", Gate.Spawned)]).
  pose (s8 := mk (Gate.AtLoop ["c"]) 2 2 [("a", Gate.InWorkflow); ("b", Gate.InWorkflow)]).
  assert (R1 : Gate.reachable 2 ["a"; "b"; "c"] s1).
  { apply Gate.reach_step with (s := Gate.init ["a"; "b"; "c"]); [apply Gate.reach_init|].
    exact (Gate.step_add 2 "a" ["b"; "c"] (Gate.init ["a"; "b"; "c"]) eq_refl). }
  assert (R2 : Gate.reachable 2 ["a"; "b"; "c"] s2).
  { apply Gate.reach_step with (s := s1); [exact R1|].
    refine (Gate.step_send 2 "a" ["b"; "c"] s1 eq_refl _). cbn. lia. }
  assert (R3 : Gate.reachable 2 ["a"; "b"; "c"] s3).
  { apply Gate.reach_step with (s := s2); [exact R2|].
    exact (Gate.step_go 2 "a" ["b"; "c"] s2 eq_refl). }
  assert (R4 : Gate.reachable 2 ["a"; "b"; "c"] s4).
  { apply Gate.reach_step with (s := s3); [exact R3|].
    exact (Gate.step_add 2 "b" ["c"] s3 eq_refl). }
  assert (R5 : Gate.reachable 2 ["a"; "b"; "c"] s5).
  { apply Gate.reach_step with (s := s4); [exact R4|].
    refine (Gate.step_send 2 "b" ["c"] s4 eq_refl _). cbn. lia. }
  assert (R6 : Gate.reachable 2 ["a"; "b"; "c"] s6).
  { apply Gate.reach_step with (s := s5); [exact R5|].
    exact (Gate.step_go 2 "b" ["c"] s5 eq_refl). }
  assert (R7 : Gate.reachable 2 ["a"; "b"; "c"] s7).
  { apply Gate.reach_step with (s := s6); [exact R6|].
    exact (Gate.step_enter 2 "a" [] [("b", Gate.Spawned)] s6 eq_refl). }
  assert (R8 : Gate.reachable 2 ["a"; "b"; "c"] s8).
  { apply Gate.reach_step with (s := s7); [exact R7|].
    exact (Gate.step_enter 2 "b" [("a", Gate.InWorkflow)] [] s7 eq_refl). }
  apply Gate.reach_step with (s := s8); [exact R8|].
  exact (Gate.step_add 2 "c" [] s8 eq_refl).
Qed.

(** In [gateFull] the main thread is blocked: only a goroutine can move. *)
Lemma gateFull_blocks_main s' :
  Gate.step 2 gateFull s' -> Gate.mainPc s' = Gate.mainPc gateFull.
Proof.
  intros Hstep. inversion Hstep; subst; cbn in *; try discriminate; try reflexivity.
  match goal with Hpc : Gate.AtSend _ _ = Gate.AtSend _ _ |- _ => clear Hpc end.
  lia.
Qed.

(** In [gateFull] the bound is met: two workflows under a gate of two. *)
Lemma gate_bounds_active_workflows_witness :
  Gate.active gateFull <= 2 /\ Gate.sem gateFull = Gate.held gateFull /\
  Gate.active gateFull <= Gate.sem gateFull /\ Gate.wg gateFull = Gate.pending gateFull.
Proof.
  exact (gate_bounds_active_workflows 2 ["a"; "b"; "c"] gateFull gateFull_reachable).
Defined.

(** [repoA] is on [main], which the allow list [develop] does not hold. *)
Lemma processRepo_branch_not_allowed_witness :
  fst (processRepo "repoA" "sync" ["develop"] false (boot disk))
  = Skipped (BranchNotAllowed "main").
Proof.
  apply (proj1 (processRepo_branch_not_allowed "repoA" "sync" ["develop"] false
                  (boot disk)) "main").
  split; [vm_compute; reflexivity|].
  split; [vm_compute; reflexivity|].
  split; [discriminate|].
  intros [Hin|[]]. discriminate.
Defined.


(** A regular file is taken for an existing checkout; a path that may not
    be inspected is cloned into. *)
Lemma checkoutRepo_bare_stat_witness :
  ProviderURL.checkoutRepo "https://example.org/org" "notes.txt" "" "notes.txt" false
    (boot disk)
  = (Skipped AlreadyExists,
     after (boot disk) disk
       [Log ("[" ++ "notes.txt" ++ "] Verzeichnis existiert, übersprungen" ++ nl)]) /\
  cloneRun "https://example.org/org/vault.git" "" "vault" disk false
    (fst (ProviderURL.checkoutRepo "https://example.org/org" "vault" "" "vault" false
            (boot disk)))
    (added (boot disk)
       (snd (ProviderURL.checkoutRepo "https://example.org/org" "vault" "" "vault" false
               (boot disk)))).
Proof.
  split.
  - apply (proj1 (checkoutRepo_bare_stat "https://example.org/org" "notes.txt" ""
                    "" "notes.txt" false (boot disk)) false).
    vm_compute. reflexivity.
  - apply (proj2 (checkoutRepo_bare_stat "https://example.org/org" "vault" ""
                    "" "vault" false (boot disk)) (ErrPermission "stat" "vault")).
    vm_compute. reflexivity.
Defined.

(** The clone into [vault], event by event. *)
Example clone_into_vault :
  added (boot disk)
    (snd (ProviderURL.checkoutRepo "https://example.org/org" "vault" "" "vault" false
            (boot disk)))
  = [Exec (git_ ["clone"; "https://example.org/org/vault.git"; "vault"] "")
       (Some (ExitError 128));
     Log ("[vault] Checkout Fehler: exit status 128" ++ nl)].
Proof. vm_compute. reflexivity. Qed.

(** C6 fails as stated: a line that begins with a separator, which
    [readLines] returns as it is, gives a source with two separators
    between the base and the name. *)
Lemma name_keeps_its_leading_separator :
  fst (readLines (Bytes ("/teamrepo" ++ nl) None)) = ["/teamrepo"] /\
  ProviderURL.fullURL "https://example.org/org" "/teamrepo" =
    "https://example.org/org//teamrepo.git" /\
  ProviderURL.fullURL "https://example.org/org" "/teamrepo" <>
    "https://example.org/org/teamrepo.git" /\
  execs (trace (snd (ProviderURL.checkoutJob
                       (flags false true "" "https://example.org/org" [])
                       "/teamrepo" (boot disk))))
  = [git_ ["clone"; "https://example.org/org//teamrepo.git"; "/teamrepo"] ""].
Proof.
  split; [vm_compute; reflexivity|]. split; [reflexivity|].
  split; [discriminate|]. vm_compute. reflexivity.
Qed.

(** The clone of the example, from a base that ends with two separators. *)
Lemma clone_source_and_directory_witness :
  cloneRun ("https://example.org/org" ++ "/" ++ "teamrepo" ++ ".git") "" "teamrepo" disk false
    (fst (ProviderURL.checkoutJob (flags false true "" "https://example.org/org//" [])
            "teamrepo" (boot disk)))
    (added (boot disk)
       (snd (ProviderURL.checkoutJob (flags false true "" "https://example.org/org//" [])
               "teamrepo" (boot disk)))) /\
  DirectURL.targetDir "https://example.org/org/teamrepo.git" = "teamrepo".
Proof.
  destruct (clone_source_and_directory
              (flags false true "" "https://example.org/org//" []) "teamrepo" (boot disk))
    as (_ & _ & _ & Hjob & _ & _ & _ & Hdir).
  split.
  - exact (Hjob (ErrNotExist "stat" "teamrepo") ltac:(vm_compute; reflexivity)).
  - exact (proj1 (Hdir "https://example.org/org" "teamrepo"
                    ltac:(discriminate) eq_refl)).
Defined.


(** The flag [main, develop]. *)
Lemma allow_list_entries_are_not_trimmed_witness :
  allowedBranches ("main" ++ ", " ++ "develop") = ["main"; " develop"] /\
  matchBranch [" develop"] "develop" = false /\
  matchBranch (allowedBranches ("main" ++ ", " ++ "develop")) "develop" = false.
Proof.
  destruct allow_list_entries_are_not_trimmed as (_ & _ & _ & T & _).
  exact (T "main" "develop" eq_refl).
Defined.

End Claims.

(** ** Runs of the dispatch loop *)

Section DispatchFacts.
Import Gate Dispatch.
Local Open Scope list_scope.

Lemma reachable_steps cap lines s :
  reachable cap lines s <-> exists n, steps cap n (init lines) s.
Proof.
  split.
  - induction 1 as [|s s' _ [n IH] Hstep].
    + exists 0. constructor.
    + exists (S n). econstructor; eassumption.
  - intros [n Hn]. remember (init lines) as s0 eqn:Hs0.
    induction Hn as [s0|n s0 s' s'' _ IH Hstep]; subst.
    + constructor.
    + econstructor; [apply IH; reflexivity|exact Hstep].
Qed.

(** The goroutines spawned so far, then the lines still to come, are the
    list. *)
Lemma spawned_then_todo cap lines s :
  reachable cap lines s ->
  map fst (gos s) ++ todo (mainPc s) = lines.
Proof.
  induction 1 as [|s s' _ IH Hstep]; [reflexivity|].
  destruct Hstep as
    [line rest s Hpc | line rest s Hpc Hfree | line rest s Hpc | s Hpc | s Hpc Hz
    | line before after s Hg | line before after s Hg | line before after s n Hg Hn];
    cbn [mainPc gos]; try rewrite Hpc in IH; try rewrite Hg in IH; cbn [todo] in *;
    try exact IH.
  - rewrite map_app. cbn. now rewrite <- app_assoc.
  - rewrite map_app in *. exact IH.
  - rewrite map_app in *. exact IH.
  - rewrite map_app in *. exact IH.
Qed.

(** X1. The goroutines were spawned in the order of the list, one for each
    line that the main thread has passed, and the lines still to come are
    the rest of the list: every line is dispatched once and in order, and
    there are never more goroutines than lines. *)
Theorem dispatch_follows_list_order cap lines s :
  reachable cap lines s ->
  map fst (gos s) ++ todo (mainPc s) = lines /\
  List.length (gos s) <= List.length lines.
Proof.
  intros Hr. pose proof (spawned_then_todo _ _ _ Hr) as Hl.
  split; [exact Hl|].
  rewrite <- Hl, List.length_app, length_map. lia.
Qed.

Lemma count_none p g :
  Forall (fun x : string * GoPc => p (snd x) = false) g -> count p g = 0.
Proof.
  induction 1 as [|x g Hx _ IH]; [reflexivity|].
  rewrite count_cons, Hx. exact IH.
Qed.

Lemma count_zero p g :
  count p g = 0 -> Forall (fun x : string * GoPc => p (snd x) = false) g.
Proof.
  induction g as [|x g IH]; [constructor|].
  rewrite count_cons. destruct (p (snd x)) eqn:Hp; [discriminate|].
  intros Hc. constructor; [exact Hp|now apply IH].
Qed.

(** [main] is past [wg.Wait()] only with a wait group at zero. *)
Lemma exit_with_zero cap lines s :
  reachable cap lines s -> mainPc s = AtExit -> wg s = 0.
Proof.
  induction 1 as [|s s' _ IH Hstep]; [discriminate|].
  destruct Hstep; cbn [mainPc wg]; intros Hpc; try discriminate;
    try congruence; try (now apply IH).
  rewrite IH by assumption. reflexivity.
Qed.

(** X2. When [main] has returned from [wg.Wait()], a goroutine has been
    spawned for every line of the list and the workflow of each has
    returned: each goroutine is at its deferred receive or has ended. *)
Theorem main_exits_after_all_workflows cap lines s :
  reachable cap lines s ->
  mainPc s = AtExit ->
  map fst (gos s) = lines /\
  Forall (fun g => snd g = Releasing \/ snd g = Ended) (gos s) /\
  active s = 0.
Proof.
  intros Hr Hpc.
  pose proof (spawned_then_todo _ _ _ Hr) as Hlist.
  rewrite Hpc in Hlist. cbn [todo] in Hlist. rewrite app_nil_r in Hlist.
  destruct (invariant_reachable _ _ _ Hr) as (_ & _ & Hwg).
  rewrite (exit_with_zero _ _ _ Hr Hpc) in Hwg. unfold pending in Hwg.
  rewrite Hpc in Hwg.
  assert (Hnone : count notReturned (gos s) = 0) by lia.
  apply count_zero in Hnone.
  split; [exact Hlist|]. split.
  - eapply Forall_impl; [|exact Hnone].
    intros [line pc]. cbn. destruct pc; intros Hp; try discriminate; auto.
  - unfold active. apply count_none.
    eapply Forall_impl; [|exact Hnone].
    intros [line pc]. cbn. destruct pc; intros Hp; try discriminate; reflexivity.
Qed.

(** A list of goroutines has all of them ended, or one that is not. *)
Lemma ended_or_not (g : list (string * GoPc)) :
  Forall (fun x => snd x = Ended) g \/
  exists before line pc after,
    g = before ++ (line, pc) :: after /\ pc <> Ended.
Proof.
  induction g as [|[line pc] g [IH|(before & l & pc' & after & Hg & Hpc)]].
  - left. constructor.
  - destruct pc; try (right; exists [], line; eexists; exists g;
                      split; [reflexivity|discriminate]).
    left. constructor; [reflexivity|exact IH].
  - right. exists ((line, pc) :: before), l, pc', after. rewrite Hg. now split.
Qed.

(** X3. With a gate of positive capacity the dispatch loop cannot get
    stuck: in every state it can reach, either the program has ended
    ([main] has returned and every goroutine has released its slot) or
    some thread can take its next statement. *)
Theorem dispatch_never_deadlocks cap lines s :
  0 < cap ->
  reachable cap lines s ->
  final s \/ exists s', step cap s s'.
Proof.
  intros Hcap Hr.
  destruct (invariant_reachable _ _ _ Hr) as (Hsem & Hle & Hwg).
  unfold held in Hsem. unfold pending in Hwg.
  destruct (ended_or_not (gos s)) as [Hall|(before & line & pc & after & Hg & Hpc)].
  - assert (Hh : count holdsSlot (gos s) = 0).
    { apply count_none. eapply Forall_impl; [|exact Hall].
      intros x Hx. now rewrite Hx. }
    assert (Hn : count notReturned (gos s) = 0).
    { apply count_none. eapply Forall_impl; [|exact Hall].
      intros x Hx. now rewrite Hx. }
    destruct (mainPc s) as [[|l rest]|l rest|l rest| |] eqn:Hm.
    + right. eexists. now apply step_loop_end.
    + right. eexists. eapply step_add. exact Hm.
    + right. eexists. eapply step_send; [exact Hm|lia].
    + right. eexists. eapply step_go. exact Hm.
    + right. eexists. apply step_wait; [exact Hm|lia].
    + left. split; [exact Hm|exact Hall].
  - right. destruct pc; try contradiction.
    + eexists. eapply step_enter. exact Hg.
    + eexists. eapply step_return. exact Hg.
    + assert (Hpos : 1 <= count holdsSlot (gos s)).
      { rewrite Hg, count_app, count_cons. cbn. lia. }
      destruct (sem s) as [|n] eqn:Hs; [lia|].
      eexists. eapply step_release; [exact Hg|exact Hs].
Qed.

Lemma left_move before after line pc pc' mp :
  goLeft pc = S (goLeft pc') ->
  mp + list_sum (map (fun g : string * GoPc => goLeft (snd g))
                   (before ++ (line, pc) :: after)) =
  S (mp + list_sum (map (fun g : string * GoPc => goLeft (snd g))
                      (before ++ (line, pc') :: after))).
Proof.
  intros Hpc. rewrite !map_app, !list_sum_app. cbn. lia.
Qed.

(** Every statement leaves one statement less to take. *)
Lemma step_left cap s s' : step cap s s' -> left s = S (left s').
Proof.
  unfold left.
  destruct 1 as
    [line rest s Hpc | line rest s Hpc Hfree | line rest s Hpc | s Hpc | s Hpc Hz
    | line before after s Hg | line before after s Hg | line before after s n Hg Hn];
    cbn [mainPc gos]; try rewrite Hpc; try rewrite Hg; cbn [mainLeft List.length].
  - lia.
  - lia.
  - rewrite map_app, list_sum_app. cbn. lia.
  - lia.
  - lia.
  - now apply left_move.
  - now apply left_move.
  - now apply left_move.
Qed.

(** X4. Every run of the dispatch loop is finite: after [n] statements
    from the start, [n] plus the statements left is six per line and two
    more, so no run is longer than that, and a run of that length has
    reached the end of the program. *)
Theorem dispatch_run_length cap lines n s :
  steps cap n (init lines) s ->
  n + left s = 6 * List.length lines + 2 /\
  n <= 6 * List.length lines + 2 /\
  (n = 6 * List.length lines + 2 -> final s).
Proof.
  intros Hn.
  assert (Hsum : n + left s = 6 * List.length lines + 2).
  { remember (init lines) as s0 eqn:Hs0.
    induction Hn as [s0|n s0 s' s'' _ IH Hstep]; subst.
    - unfold left, init. cbn. lia.
    - specialize (IH eq_refl). rewrite (step_left _ _ _ Hstep) in IH. lia. }
  split; [exact Hsum|]. split; [lia|].
  intros ->. assert (Hz : left s = 0) by lia.
  unfold left in Hz. apply Nat.eq_add_0 in Hz as [Hm Hg].
  split.
  - destruct (mainPc s); cbn in Hm; try lia; reflexivity.
  - clear Hm Hsum Hn. induction (gos s) as [|[line pc] g IH]; [constructor|].
    cbn [map list_sum fold_right snd] in Hg.
    apply Nat.eq_add_0 in Hg as [Hpc Hrest]. constructor.
    + destruct pc; cbn in Hpc; try discriminate; reflexivity.
    + apply IH. exact Hrest.
Qed.

(** X5. With a gate of capacity zero and at least one line, the first send
    on the channel can never complete, there being no receiver: no
    goroutine is spawned, no workflow starts, and [main] never returns from
    the loop. *)
Theorem zero_capacity_blocks lines s :
  lines <> [] ->
  reachable 0 lines s ->
  gos s = [] /\ active s = 0 /\ mainPc s <> AtExit /\
  (mainPc s = AtLoop lines \/
   exists line rest, lines = line :: rest /\ mainPc s = AtSend line rest).
Proof.
  intros Hne Hr.
  assert (Hinv : gos s = [] /\
                 (mainPc s = AtLoop lines \/
                  exists line rest, lines = line :: rest /\ mainPc s = AtSend line rest)).
  { induction Hr as [|s s' _ [Hg Hm] Hstep]; [split; [reflexivity|now left]|].
    destruct Hstep as
      [line rest s Hpc | line rest s Hpc Hfree | line rest s Hpc | s Hpc | s Hpc Hz
      | line before after s Hgo | line before after s Hgo | line before after s n Hgo Hn];
      cbn [mainPc gos]; try lia;
      try (rewrite Hg in Hgo; destruct before; discriminate).
    - split; [exact Hg|]. right. exists line, rest. split; [|reflexivity].
      destruct Hm as [Hm|(l & r & _ & Hm)]; congruence.
    - exfalso. destruct Hm as [Hm|(l & r & _ & Hm)]; congruence.
    - exfalso. destruct Hm as [Hm|(l & r & _ & Hm)]; congruence.
    - exfalso. destruct Hm as [Hm|(l & r & _ & Hm)]; congruence. }
  destruct Hinv as [Hg Hm].
  split; [exact Hg|]. split; [unfold active; now rewrite Hg|].
  split; [|exact Hm].
  destruct Hm as [Hm|(l & r & _ & Hm)]; rewrite Hm; discriminate.
Qed.

End DispatchFacts.

Section DispatchRuns.
Import Gate Dispatch Toy.
Local Open Scope list_scope.

(** The whole run of one line under a gate of one. *)
Lemma one_line_run :
  steps 1 8 (init ["a"])
    {| mainPc := AtExit; sem := 0; wg := 0; gos := [("a", Ended)] |}.
Proof.
  pose (mk := fun pc n w g => {| mainPc := pc; sem := n; wg := w; gos := g |}).
  pose (s1 := mk (AtSend "a" []) 0 1 []).
  pose (s2 := mk (AtGo "a" []) 1 1 []).
  pose (s3 := mk (AtLoop []) 1 1 [("a", Spawned)]).
  pose (s4 := mk (AtLoop []) 1 1 [("a", InWorkflow)]).
  pose (s5 := mk (AtLoop []) 1 0 [("a", Releasing)]).
  pose (s6 := mk AtWait 1 0 [("a", Releasing)]).
  pose (s7 := mk AtExit 1 0 [("a", Releasing)]).
  apply steps_more with (s' := s7).
  apply steps_more with (s' := s6).
  apply steps_more with (s' := s5).
  apply steps_more with (s' := s4).
  apply steps_more with (s' := s3).
  apply steps_more with (s' := s2).
  apply steps_more with (s' := s1).
  apply steps_more with (s' := init ["a"]).
  - constructor.
  - exact (step_add 1 "a" [] (init ["a"]) eq_refl).
  - refine (step_send 1 "a" [] s1 eq_refl _). cbn. lia.
  - exact (step_go 1 "a" [] s2 eq_refl).
  - exact (step_enter 1 "a" [] [] s3 eq_refl).
  - exact (step_return 1 "a" [] [] s4 eq_refl).
  - exact (step_loop_end 1 s5 eq_refl).
  - exact (step_wait 1 s6 eq_refl eq_refl).
  - exact (step_release 1 "a" [] [] s7 0 eq_refl eq_refl).
Qed.

Lemma one_line_end_reachable :
  reachable 1 ["a"]
    {| mainPc := AtExit; sem := 0; wg := 0; gos := [("a", Ended)] |}.
Proof. apply reachable_steps. exists 8. exact one_line_run. Qed.

Lemma zero_gate_reachable :
  reachable 0 ["a"] {| mainPc := AtSend "a" []; sem := 0; wg := 1; gos := [] |}.
Proof.
  apply reach_step with (s := init ["a"]); [constructor|].
  exact (step_add 0 "a" [] (init ["a"]) eq_refl).
Qed.

(** In [gateFull] two lines are spawned and the third is to come. *)
Lemma dispatch_follows_list_order_witness :
  map fst (gos gateFull) ++ todo (mainPc gateFull) = ["a"; "b"; "c"] /\
  List.length (gos gateFull) <= 3.
Proof.
  exact (dispatch_follows_list_order 2 ["a"; "b"; "c"] gateFull gateFull_reachable).
Defined.

(** At the end of the run of one line. *)
Lemma main_exits_after_all_workflows_witness :
  map fst [("a", Ended)] = ["a"] /\
  Forall (fun g : string * GoPc => snd g = Releasing \/ snd g = Ended) [("a", Ended)] /\
  active {| mainPc := AtExit; sem := 0; wg := 0; gos := [("a", Ended)] |} = 0.
Proof.
  exact (main_exits_after_all_workflows 1 ["a"] _ one_line_end_reachable eq_refl).
Defined.

(** In [gateFull] a goroutine can move. *)
Lemma dispatch_never_deadlocks_witness :
  final gateFull \/ exists s', step 2 gateFull s'.
Proof.
  refine (dispatch_never_deadlocks 2 ["a"; "b"; "c"] gateFull _ gateFull_reachable).
  lia.
Defined.

(** The run of one line takes eight statements and ends the program. *)
Lemma dispatch_run_length_witness :
  final {| mainPc := AtExit; sem := 0; wg := 0; gos := [("a", Ended)] |}.
Proof.
  exact (proj2 (proj2 (dispatch_run_length 1 ["a"] 8 _ one_line_run)) eq_refl).
Defined.

(** With a gate of zero the main thread stays at its first send. *)
Lemma zero_capacity_blocks_witness :
  mainPc {| mainPc := AtSend "a" []; sem := 0; wg := 1; gos := [] |} <> AtExit.
Proof.
  refine (proj1 (proj2 (proj2 (zero_capacity_blocks ["a"] _ _ zero_gate_reachable)))).
  discriminate.
Defined.

End DispatchRuns.

(** ** More on the workflows *)

Section WorkflowFacts.
Context {H : Host}.

Local Arguments Command : simpl never.
Local Arguments filepath_Join : simpl never.
Local Arguments TrimSpace : simpl never.
Local Arguments String.append : simpl never.

(** X6. A target that [processRepo] skips is not acted upon: nothing is
    printed, the only processes are the probes that ran before the skip was
    decided (none, the branch probe, or the branch and the status probe),
    the logger receives one line, and a target that is not a repository
    leaves the world as it was without any process. *)
Theorem skipped_target_is_not_touched repo msg allowed dryRun s reason s' :
  processRepo repo msg allowed dryRun s = (Skipped reason, s') ->
  printed (added s s') = [] /\
  (execs (added s s') = [] \/
   execs (added s s') = [branchCmd repo] \/
   execs (added s s') = [branchCmd repo; statusCmd repo]) /\
  List.length (logged (added s s')) = 1 /\
  (reason = NotARepository -> world s' = world s /\ execs (added s s') = []).
Proof.
  intros Hrun. pose proof (processRepo_path repo msg allowed dryRun s) as P.
  rewrite Hrun in P. inversion P; subst; rewrite ?added_after; cbn.
  - repeat split; auto.
  - repeat split; auto; discriminate.
  - repeat split; auto; discriminate.
  - repeat split; auto; discriminate.
  - exfalso.
    match goal with Hp : _ = pipeline _ _ _ ?st |- _ =>
      apply (pipeline_not_skipped repo msg dryRun st reason); now rewrite <- Hp end.
Qed.

(** X8. The output of a dry run names neither the target nor the limits
    of the arguments: two targets that reach Running with the same commit
    message print the same three lines, and a commit message with a space
    prints like two arguments. *)
Theorem dry_run_output_is_anonymous :
  (forall repo1 repo2 msg allowed1 allowed2 s1 s2 s1' s2',
     processRepo repo1 msg allowed1 true s1 = (Succeeded, s1') ->
     processRepo repo2 msg allowed2 true s2 = (Succeeded, s2') ->
     printed (added s1 s1') = printed (added s2 s2')) /\
  (forall repo m1 m2,
     preview (commitCmd repo (m1 ++ " " ++ m2)) =
     preview (stepCmd repo ["git"; "commit"; "-m"; m1; m2])).
Proof.
  split.
  - intros repo1 repo2 msg allowed1 allowed2 s1 s2 s1' s2' H1 H2.
    pose proof (processRepo_run _ _ _ _ _ _ _ H1) as R1.
    pose proof (processRepo_run _ _ _ _ _ _ _ H2) as R2.
    inversion R1 as [| | | |b1 o1 steps1 Hg1 P1]; subst.
    inversion R2 as [| | | |b2 o2 steps2 Hg2 P2]; subst.
    inversion P1; subst. inversion P2; subst. reflexivity.
  - intros repo m1 m2. reflexivity.
Qed.

(** X9. A run of [checkoutRepo] sends one line to the logger, whatever
    happens, and runs at most one process, the clone, in a real run only.
    It skips exactly when [os.Stat] finds the target path, and it fails
    with an error exactly when, in a real run, the path was not found and
    the clone ended with that error. The workflow of [main.go] is this one
    with the composed URL as the source. *)
Theorem checkoutRepo_outcomes url branch dir dryRun s :
  let r := DirectURL.checkoutRepo url branch dir dryRun s in
  List.length (logged (added s (snd r))) = 1 /\
  (execs (added s (snd r)) = [] \/
   (dryRun = false /\ execs (added s (snd r)) = [cloneCmd url branch dir])) /\
  (fst r = Skipped AlreadyExists <-> exists info, os_Stat dir (world s) = inl info) /\
  (forall err,
     fst r = Failed err <->
     dryRun = false /\ (exists e, os_Stat dir (world s) = inr e) /\
     snd (fst (start (cloneCmd url branch dir) (world s))) = Some err) /\
  (forall providerURL repoName,
     ProviderURL.checkoutRepo providerURL repoName branch dir dryRun s =
     DirectURL.checkoutRepo (ProviderURL.fullURL providerURL repoName) branch dir
       dryRun s).
Proof.
  cbv zeta. destruct (os_Stat dir (world s)) as [info|e] eqn:Hst.
  - rewrite (checkoutRepo_exists _ _ _ _ _ _ Hst). cbn [fst snd].
    rewrite added_after. cbn.
    split; [reflexivity|]. split; [now left|]. split.
    + split; [eauto|reflexivity].
    + split; [|reflexivity].
      intros err. split; [discriminate|]. intros (_ & (e & He) & _). discriminate.
  - destruct dryRun.
    + rewrite (checkoutRepo_previewed _ _ _ _ _ Hst). cbn [fst snd].
      rewrite added_after. cbn.
      split; [reflexivity|]. split; [now left|]. split.
      * split; [discriminate|]. intros [info Hi]. discriminate.
      * split; [|reflexivity].
        intros err. split; [discriminate|]. intros (Hd & _). discriminate.
    + destruct (start (cloneCmd url branch dir) (world s)) as [[out err] w] eqn:Hcl.
      rewrite (checkoutRepo_cloned _ _ _ _ _ _ _ _ Hst Hcl). cbn [fst snd].
      rewrite added_after. cbn.
      split; [reflexivity|]. split; [right; now split|]. split.
      * split; [destruct err; discriminate|]. intros [info Hi]. discriminate.
      * split; [|reflexivity].
        intros err'. split.
        -- destruct err as [e0|]; [|discriminate].
           intros Heq. injection Heq as <-. split; [reflexivity|]. split; eauto.
        -- intros (_ & _ & Herr). now subst err.
Qed.

End WorkflowFacts.

(** ** More on the strings of the program *)

Section PathFacts.

Lemma Split_pieces s sep : Forall (fun x => occurs sep x = false) (Split s sep).
Proof.
  induction s as [|c r IH]; cbn.
  - constructor; [reflexivity|constructor].
  - destruct (Ascii.eqb c sep) eqn:Hc.
    + constructor; [reflexivity|exact IH].
    + destruct (Split r sep) as [|x xs]; inversion IH; subst;
        constructor; cbn; try rewrite Hc; auto.
Qed.

Lemma Split_length s sep : List.length (Split s sep) = S (countByte sep s).
Proof.
  induction s as [|c r IH]; cbn; [reflexivity|].
  pose proof (Split_nonempty r sep) as Hne.
  destruct (Ascii.eqb c sep); cbn.
  - now rewrite IH.
  - destruct (Split r sep) as [|x xs]; [contradiction|]. cbn in *. exact IH.
Qed.

Lemma occurs_false_neq c a b :
  occurs c a = true -> occurs c b = false -> a <> b.
Proof. intros Ha Hb ->. congruence. Qed.

(** X10. The allow list is empty exactly for the empty flag; for any
    other flag it has one entry more than the flag has commas, so that a
    flag of commas alone is a list of empty names; no entry holds a comma,
    and so a branch whose name holds a comma is rejected by every non-empty
    flag. *)
Theorem allow_list_shape flag :
  (allowedBranches flag = [] <-> flag = "") /\
  Forall (fun b => occurs "," b = false) (allowedBranches flag) /\
  List.length (allowedBranches flag) =
    (if flag =? "" then 0 else S (countByte "," flag)) /\
  (forall branch,
     flag <> "" -> occurs "," branch = true ->
     branchRejected (allowedBranches flag) branch = true).
Proof.
  unfold allowedBranches.
  destruct (String.eqb_spec flag "") as [->|Hne]; cbn [negb].
  - split; [tauto|]. split; [constructor|]. split; [reflexivity|].
    intros branch Hf. contradiction.
  - pose proof (Split_nonempty flag ",") as Hs.
    split; [split; intros; contradiction|].
    split; [apply Split_pieces|]. split; [apply Split_length|].
    intros branch _ Hb. apply branchRejected_spec. split; [exact Hs|].
    intros Hin. pose proof (Split_pieces flag ",") as Hall.
    rewrite Forall_forall in Hall. specialize (Hall _ Hin). congruence.
Qed.

Lemma last_Forall {A} (P : A -> Prop) l d : Forall P l -> P d -> P (last l d).
Proof.
  induction 1 as [|x l Hx Hl IH]; intros Hd; [exact Hd|].
  destruct l; [exact Hx|]. now apply IH.
Qed.

Lemma occurs_substring c s : forall n m,
  occurs c s = false -> occurs c (substring n m s) = false.
Proof.
  induction s as [|a r IH]; intros n m Hs.
  - destruct n, m; reflexivity.
  - cbn in Hs. apply orb_false_iff in Hs as [Ha Hr].
    destruct n as [|n]; [destruct m as [|m]|]; cbn.
    + reflexivity.
    + rewrite Ha. now apply IH.
    + now apply IH.
Qed.

Lemma Base_shape path : Base path = "/" \/ occurs "/" (Base path) = false.
Proof.
  unfold Base. destruct (path =? ""); [now right|].
  destruct (last (Split (TrimRight path "/") "/") "" =? "") eqn:He; [now left|].
  right. apply last_Forall; [apply Split_pieces|reflexivity].
Qed.

Lemma Base_nonempty path : Base path <> "".
Proof.
  unfold Base. destruct (path =? ""); [discriminate|].
  destruct (last (Split (TrimRight path "/") "/") "" =? "") eqn:He; [discriminate|].
  now apply String.eqb_neq.
Qed.

Lemma substring_split s : forall n,
  n <= String.length s ->
  s = substring 0 n s ++ substring n (String.length s - n) s.
Proof.
  induction s as [|a r IH]; intros n Hn.
  - destruct n; reflexivity.
  - destruct n as [|n]; cbn.
    + now rewrite substring_all.
    + f_equal. apply IH. cbn in Hn. lia.
Qed.

(** A string with a suffix is what comes before, then the suffix. *)
Lemma HasSuffix_split s suffix :
  HasSuffix s suffix = true ->
  s = substring 0 (String.length s - String.length suffix) s ++ suffix.
Proof.
  unfold HasSuffix. intros Hs. apply andb_true_iff in Hs as [Hlen Heq].
  apply Nat.leb_le in Hlen. apply String.eqb_eq in Heq.
  rewrite (substring_split s (String.length s - String.length suffix)) at 1 by lia.
  f_equal.
  replace (String.length s - (String.length s - String.length suffix))
    with (String.length suffix) by lia.
  exact Heq.
Qed.

(** X11. The directory the second variant clones into is one segment: it
    holds no separator, unless it is the root itself. It is the same
    for a line with separators added at its end, and it is empty exactly
    when the last segment of the line is [.git] alone. *)
Theorem targetDir_is_one_segment url :
  (DirectURL.targetDir url = "/" \/ occurs "/" (DirectURL.targetDir url) = false) /\
  (forall k, url <> "" ->
     DirectURL.targetDir (url ++ replicate k "/") = DirectURL.targetDir url) /\
  (DirectURL.targetDir url = "" <-> Base url = ".git").
Proof.
  unfold DirectURL.targetDir. split; [|split].
  - destruct (Base_shape url) as [Hb|Hb].
    + left. rewrite Hb. reflexivity.
    + right. unfold TrimSuffix. destruct (HasSuffix (Base url) ".git"); [|exact Hb].
      now apply occurs_substring.
  - intros k Hne. f_equal. unfold Base.
    rewrite TrimRight_app_trimmed by apply TrimRight_replicate.
    destruct url as [|a r]; [contradiction|reflexivity].
  - split.
    + unfold TrimSuffix. destruct (HasSuffix (Base url) ".git") eqn:Hs.
      * intros He. rewrite (HasSuffix_split _ _ Hs), He. reflexivity.
      * intros He. now apply Base_nonempty in He.
    + intros ->. reflexivity.
Qed.

Lemma append_nil_right (s : string) : s ++ "" = s.
Proof. induction s; cbn; [reflexivity|now f_equal]. Qed.

Lemma Split_replicate k : Split (replicate k "/") "/" = repeat "" (S k).
Proof. induction k as [|k IH]; cbn; [reflexivity|now rewrite IH]. Qed.

Lemma fold_cleanStep_empties rooted k stack :
  fold_left (cleanStep rooted) (repeat "" k) stack = stack.
Proof. induction k as [|k IH]; [reflexivity|exact IH]. Qed.

(** Cleaning a path with [.git] joined to it does not see separators at
    the end of the path. *)
Lemma Join_git_trailing repo k :
  repo <> "" ->
  filepath_Join [repo ++ replicate k "/"; ".git"] = filepath_Join [repo; ".git"].
Proof.
  intros Hne. destruct repo as [|a r]; [contradiction|].
  destruct k as [|k].
  { cbn [replicate]. now rewrite append_nil_right. }
  assert (E1 : forall z, (String a z =? "") = false) by reflexivity.
  assert (E2 : forall z, prefix "/" (String a z) = prefix "/" (String a "")).
  { intros z. cbn [prefix].
    destruct (ascii_dec "/" a); [now destruct z|reflexivity]. }
  unfold filepath_Join.
  change (filter (fun e => negb (e =? "")) [String a r ++ replicate (S k) "/"; ".git"])
    with [String a r ++ replicate (S k) "/"; ".git"].
  change (filter (fun e => negb (e =? "")) [String a r; ".git"])
    with [String a r; ".git"].
  cbv beta iota.
  change (Join [String a r ++ replicate (S k) "/"; ".git"] "/")
    with (String a ((r ++ replicate (S k) "/") ++ String "/" ".git")).
  change (Join [String a r; ".git"] "/") with (String a (r ++ String "/" ".git")).
  unfold Clean. rewrite !E1.
  rewrite (E2 ((r ++ replicate (S k) "/") ++ String "/" ".git")).
  rewrite (E2 (r ++ String "/" ".git")).
  assert (Hsplit :
    Split (String a ((r ++ replicate (S k) "/") ++ String "/" ".git")) "/" =
    (Split (String a r) "/" ++ repeat "" (S k) ++ [".git"])%list).
  { change (String a ((r ++ replicate (S k) "/") ++ String "/" ".git"))
      with ((String a r ++ replicate (S k) "/") ++ String "/" ".git").
    rewrite Split_app. cbn [replicate]. rewrite Split_app, Split_replicate.
    now rewrite <- app_assoc. }
  assert (Hsplit0 :
    Split (String a (r ++ String "/" ".git")) "/" =
    (Split (String a r) "/" ++ [".git"])%list).
  { change (String a (r ++ String "/" ".git")) with (String a r ++ String "/" ".git").
    now rewrite Split_app. }
  rewrite Hsplit, Hsplit0.
  rewrite !fold_left_app, fold_cleanStep_empties. reflexivity.
Qed.

End PathFacts.

Section RepoProbe.
Context {H : Host}.

(** X12. Whether a target is a repository does not depend on separators
    at the end of its path, and asking leaves the state as it was. *)
Theorem isGitRepo_ignores_trailing_separators repo k s :
  repo <> "" ->
  isGitRepo (repo ++ replicate k "/") s = isGitRepo repo s /\
  snd (isGitRepo repo s) = s.
Proof.
  intros Hne. unfold isGitRepo, Stat, bind, ret.
  rewrite (Join_git_trailing repo k Hne). split; reflexivity.
Qed.

End RepoProbe.

(** ** White space and the repo file *)

Section TrimFacts.

Lemma prefix_length w : forall s, prefix w s = true -> String.length w <= String.length s.
Proof.
  induction w as [|a w IH]; intros s Hp; [cbn; lia|].
  destruct s as [|b s]; [discriminate|]. cbn in Hp.
  destruct (ascii_dec a b); [|discriminate]. cbn. apply IH in Hp. lia.
Qed.

Lemma prefix_app w : forall s x, prefix w s = true -> prefix w (s ++ x) = true.
Proof.
  induction w as [|a w IH]; intros s x Hp; [now destruct (s ++ x)|].
  destruct s as [|b s]; [discriminate|]. cbn in *.
  destruct (ascii_dec a b); [now apply IH|discriminate].
Qed.

Lemma substring_length s : forall n m,
  String.length (substring n m s) = Nat.min m (String.length s - n).
Proof.
  induction s as [|a r IH]; intros n m.
  - destruct n, m; reflexivity.
  - destruct n as [|n]; [destruct m as [|m]|]; cbn.
    + reflexivity.
    + rewrite IH. now rewrite Nat.sub_0_r.
    + apply IH.
Qed.

Lemma dropPrefix_length n s :
  String.length (dropPrefix n s) = String.length s - n.
Proof. unfold dropPrefix. rewrite substring_length. lia. Qed.

Lemma TrimSuffix_length s w :
  HasSuffix s w = true ->
  String.length (TrimSuffix s w) = String.length s - String.length w.
Proof.
  intros Hs. unfold TrimSuffix. rewrite Hs, substring_length. lia.
Qed.

Lemma spaces_nonempty w : In w spaces -> 1 <= String.length w.
Proof.
  intros Hin.
  assert (Hall : forallb (fun x => Nat.leb 1 (String.length x)) spaces = true)
    by reflexivity.
  rewrite forallb_forall in Hall. apply Nat.leb_le. now apply Hall.
Qed.

Lemma find_all_false {A} (f : A -> bool) l :
  (forall x, In x l -> f x = false) -> find f l = None.
Proof.
  induction l as [|x l IH]; intros Hall; [reflexivity|]. cbn.
  rewrite (Hall x (or_introl eq_refl)). apply IH. intros y Hy. apply Hall. now right.
Qed.

Lemma HasSuffix_length s w : HasSuffix s w = true -> String.length w <= String.length s.
Proof.
  unfold HasSuffix. intros Hs. apply andb_true_iff in Hs as [Hl _].
  now apply Nat.leb_le.
Qed.

(** After the trim of the left end no white space begins the string. *)
Lemma trimLeftSpace_done fuel : forall s,
  String.length s <= fuel ->
  find (fun w => prefix w (trimLeftSpace fuel s)) spaces = None.
Proof.
  induction fuel as [|fuel IH]; intros s Hlen.
  - destruct s; [reflexivity|cbn in Hlen; lia].
  - cbn [trimLeftSpace].
    destruct (find (fun w => prefix w s) spaces) as [w|] eqn:Hf; [|exact Hf].
    apply find_some in Hf as [Hin Hp]. apply IH.
    rewrite dropPrefix_length. pose proof (spaces_nonempty w Hin).
    pose proof (prefix_length _ _ Hp). lia.
Qed.

Lemma trimRightSpace_done fuel : forall s,
  String.length s <= fuel ->
  find (fun w => HasSuffix (trimRightSpace fuel s) w) spaces = None.
Proof.
  induction fuel as [|fuel IH]; intros s Hlen.
  - destruct s; [reflexivity|cbn in Hlen; lia].
  - cbn [trimRightSpace].
    destruct (find (fun w => HasSuffix s w) spaces) as [w|] eqn:Hf; [|exact Hf].
    apply find_some in Hf as [Hin Hp]. apply IH.
    rewrite (TrimSuffix_length _ _ Hp). pose proof (spaces_nonempty w Hin).
    pose proof (HasSuffix_length _ _ Hp). lia.
Qed.

(** The trim of the right end keeps a left end without white space. *)
Lemma trimRightSpace_keeps_left fuel : forall s,
  find (fun w => prefix w s) spaces = None ->
  find (fun w => prefix w (trimRightSpace fuel s)) spaces = None.
Proof.
  induction fuel as [|fuel IH]; intros s Hs; [exact Hs|].
  cbn [trimRightSpace].
  destruct (find (fun w => HasSuffix s w) spaces) as [w|] eqn:Hf; [|exact Hs].
  apply find_some in Hf as [Hin Hp]. apply IH.
  apply find_all_false. intros w' Hw'.
  destruct (prefix w' (TrimSuffix s w)) eqn:Hpre; [|reflexivity].
  pose proof (find_none _ _ Hs w' Hw') as Hno. cbn in Hno.
  rewrite (HasSuffix_split _ _ Hp) in Hno.
  unfold TrimSuffix in Hpre. rewrite Hp in Hpre.
  now rewrite (prefix_app _ _ w Hpre) in Hno.
Qed.

Lemma TrimSpace_trimmed s : trimmed (TrimSpace s).
Proof.
  unfold trimmed, TrimSpace. split.
  - apply trimRightSpace_keeps_left. now apply trimLeftSpace_done.
  - now apply trimRightSpace_done.
Qed.

Lemma trimmed_fixed s : trimmed s -> TrimSpace s = s.
Proof.
  intros [Hl Hr]. unfold TrimSpace.
  assert (Hleft : trimLeftSpace (String.length s) s = s).
  { destruct (String.length s); [reflexivity|]. cbn [trimLeftSpace]. now rewrite Hl. }
  rewrite Hleft.
  destruct (String.length s); [reflexivity|]. cbn [trimRightSpace]. now rewrite Hr.
Qed.

Lemma fixed_trimmed s : TrimSpace s = s -> trimmed s.
Proof. intros <-. apply TrimSpace_trimmed. Qed.

Lemma TrimSpace_again s : TrimSpace (TrimSpace s) = TrimSpace s.
Proof. apply trimmed_fixed, TrimSpace_trimmed. Qed.

Lemma trimLeftSpace_occurs c fuel : forall s,
  occurs c s = false -> occurs c (trimLeftSpace fuel s) = false.
Proof.
  induction fuel as [|fuel IH]; intros s Hs; [exact Hs|].
  cbn [trimLeftSpace]. destruct (find (fun w => prefix w s) spaces); [|exact Hs].
  apply IH. unfold dropPrefix. now apply occurs_substring.
Qed.

Lemma TrimSuffix_occurs c s w : occurs c s = false -> occurs c (TrimSuffix s w) = false.
Proof.
  intros Hs. unfold TrimSuffix. destruct (HasSuffix s w); [|exact Hs].
  now apply occurs_substring.
Qed.

Lemma trimRightSpace_occurs c fuel : forall s,
  occurs c s = false -> occurs c (trimRightSpace fuel s) = false.
Proof.
  induction fuel as [|fuel IH]; intros s Hs; [exact Hs|].
  cbn [trimRightSpace]. destruct (find (fun w => HasSuffix s w) spaces); [|exact Hs].
  apply IH. now apply TrimSuffix_occurs.
Qed.

Lemma TrimSpace_occurs c s : occurs c s = false -> occurs c (TrimSpace s) = false.
Proof.
  intros Hs. unfold TrimSpace. now apply trimRightSpace_occurs, trimLeftSpace_occurs.
Qed.

Lemma trimLeftSpace_length fuel : forall s,
  String.length (trimLeftSpace fuel s) <= String.length s.
Proof.
  induction fuel as [|fuel IH]; intros s; [reflexivity|].
  cbn [trimLeftSpace]. destruct (find (fun w => prefix w s) spaces); [|reflexivity].
  etransitivity; [apply IH|]. rewrite dropPrefix_length. lia.
Qed.

Lemma TrimSuffix_shorter s w : String.length (TrimSuffix s w) <= String.length s.
Proof.
  unfold TrimSuffix. destruct (HasSuffix s w); [|reflexivity].
  rewrite substring_length. lia.
Qed.

Lemma trimRightSpace_length fuel : forall s,
  String.length (trimRightSpace fuel s) <= String.length s.
Proof.
  induction fuel as [|fuel IH]; intros s; [reflexivity|].
  cbn [trimRightSpace]. destruct (find (fun w => HasSuffix s w) spaces); [|reflexivity].
  etransitivity; [apply IH|]. apply TrimSuffix_shorter.
Qed.

Lemma TrimSpace_length s : String.length (TrimSpace s) <= String.length s.
Proof.
  unfold TrimSpace. etransitivity; [apply trimRightSpace_length|].
  apply trimLeftSpace_length.
Qed.

End TrimFacts.

Section FileFacts.

Local Opaque MaxScanTokenSize.

Lemma MaxScanTokenSize_positive : Nat.leb MaxScanTokenSize 0 = false.
Proof. vm_compute. reflexivity. Qed.

Lemma dropCR_occurs c s : occurs c s = false -> occurs c (dropCR s) = false.
Proof. apply TrimSuffix_occurs. Qed.

Lemma dropCR_length s : String.length (dropCR s) <= String.length s.
Proof. apply TrimSuffix_shorter. Qed.

Lemma dropCR_trimmed s : trimmed s -> dropCR s = s.
Proof.
  intros [_ Hr]. unfold dropCR, TrimSuffix.
  assert (Hin : In (byte 13) spaces) by (cbn; tauto).
  pose proof (find_none _ _ Hr _ Hin) as Hs. cbn beta in Hs. now rewrite Hs.
Qed.

(** Every line of the scan comes from a piece of accepted length. *)
Lemma scanAll_lines ps : forall line,
  In line (fst (scanAll ps)) ->
  exists piece,
    In piece ps /\ line = TrimSpace (dropCR piece) /\ line <> "" /\
    String.length piece < MaxScanTokenSize.
Proof.
  induction ps as [|piece rest IH]; intros line Hin; [contradiction|].
  cbn [scanAll] in Hin.
  destruct (Nat.leb MaxScanTokenSize (String.length piece)) eqn:Hlen; [contradiction|].
  apply Nat.leb_gt in Hlen. cbn [fst] in Hin.
  destruct (String.eqb_spec (TrimSpace (dropCR piece)) "") as [He|He]; cbn [negb] in Hin.
  - destruct (IH _ Hin) as (p & Hp & Hrest). exists p. split; [now right|exact Hrest].
  - destruct Hin as [<-|Hin].
    + exists piece. repeat split; auto. now left.
    + destruct (IH _ Hin) as (p & Hp & Hrest). exists p. split; [now right|exact Hrest].
Qed.

Lemma removelast_incl {A} (l : list A) x : In x (removelast l) -> In x l.
Proof.
  induction l as [|a l IH]; [contradiction|]. cbn.
  destruct l; [contradiction|]. intros [->|Hin]; [now left|right; now apply IH].
Qed.

Lemma pieces_incl content piece :
  In piece (pieces content) -> In piece (Split content newline).
Proof.
  unfold pieces. destruct (last (Split content newline) "" =? ""); [|auto].
  apply removelast_incl.
Qed.

(** X13. Every line [readLines] returns is a target fit for a workflow: it
    is not empty, it has no white space at either end (trimming it again
    changes nothing), it holds no newline, and it is shorter than the
    scanner's limit. *)
Theorem readLines_gives_clean_lines file line :
  In line (fst (readLines file)) ->
  line <> "" /\ TrimSpace line = line /\ occurs newline line = false /\
  String.length line < MaxScanTokenSize.
Proof.
  destruct file as [err|content readErr]; [contradiction|]. cbn [readLines fst].
  intros Hin. destruct (scanAll_lines _ _ Hin) as (piece & Hp & -> & Hne & Hlen).
  split; [exact Hne|]. split; [apply TrimSpace_again|]. split.
  - apply TrimSpace_occurs, dropCR_occurs.
    pose proof (Split_pieces content newline) as Hall.
    rewrite Forall_forall in Hall. apply Hall. now apply pieces_incl.
  - pose proof (TrimSpace_length (dropCR piece)). pose proof (dropCR_length piece). lia.
Qed.

(** Splitting what was joined gives the list back. *)
Lemma Split_Join lines sep :
  lines <> [] ->
  Forall (fun l => occurs sep l = false) lines ->
  Split (Join lines (String sep "")) sep = lines.
Proof.
  unfold Join. intros Hne Hall. induction Hall as [|x l Hx Hl IH]; [contradiction|].
  destruct l as [|y r].
  - cbn. now apply Split_without_sep.
  - change (String.concat (String sep "") (x :: y :: r))
      with (x ++ String sep (String.concat (String sep "") (y :: r))).
    rewrite Split_app, (Split_without_sep x sep Hx), IH by discriminate. reflexivity.
Qed.

Lemma last_nonempty (l : list string) :
  l <> [] -> Forall (fun x => x <> "") l -> last l "" <> "".
Proof.
  intros Hne Hall. induction Hall as [|x l Hx Hl IH]; [contradiction|].
  destruct l; [exact Hx|]. apply IH. discriminate.
Qed.

Lemma scanAll_clean lines : Forall cleanLine lines -> scanAll lines = (lines, None).
Proof.
  induction 1 as [|l lines (Hne & Ht & _ & Hlen) _ IH]; [reflexivity|].
  cbn [scanAll]. apply Nat.leb_gt in Hlen. rewrite Hlen.
  rewrite (dropCR_trimmed l) by now apply fixed_trimmed.
  rewrite Ht, IH. apply String.eqb_neq in Hne. now rewrite Hne.
Qed.

(** X14. A repo file written from a list of clean lines, one per line with
    or without a newline after the last, is read back as that list,
    without error. *)
Theorem readLines_round_trip lines :
  Forall cleanLine lines ->
  readLines (Bytes (Join lines (String newline "")) None) = (lines, None) /\
  readLines (Bytes (Join lines (String newline "") ++ String newline "") None)
  = (lines, None).
Proof.
  intros Hall.
  assert (Hread : forall content,
            scanAll (pieces content) = (lines, None) ->
            readLines (Bytes content None) = (lines, None)).
  { intros content Hs. cbn [readLines]. now rewrite Hs. }
  destruct lines as [|l0 rest].
  { split; apply Hread.
    - reflexivity.
    - cbn [Join String.concat append]. unfold pieces. cbn [Split last removelast].
      change (Ascii.eqb newline newline) with true. cbn [Split last removelast String.eqb].
      cbn [scanAll String.length]. now rewrite MaxScanTokenSize_positive. }
  set (lines := l0 :: rest) in *.
  assert (Hne : lines <> []) by discriminate.
  assert (Hnl : Forall (fun l => occurs newline l = false) lines).
  { eapply Forall_impl; [|exact Hall]. intros a (_ & _ & Ha & _). exact Ha. }
  assert (Hnonempty : Forall (fun l => l <> "") lines).
  { eapply Forall_impl; [|exact Hall]. intros a (Ha & _). exact Ha. }
  pose proof (Split_Join lines newline Hne Hnl) as Hsplit.
  split; apply Hread.
  - unfold pieces. rewrite Hsplit.
    pose proof (last_nonempty lines Hne Hnonempty) as Hlast.
    apply String.eqb_neq in Hlast. rewrite Hlast. now apply scanAll_clean.
  - unfold pieces. rewrite Split_app, Hsplit. cbn [Split].
    rewrite last_last, String.eqb_refl, removelast_last. now apply scanAll_clean.
Qed.

Lemma scanAll_error ps :
  snd (scanAll ps) = None \/ snd (scanAll ps) = Some ErrTooLong.
Proof.
  induction ps as [|piece rest IH]; [now left|]. cbn [scanAll].
  destruct (Nat.leb MaxScanTokenSize (String.length piece)); [now right|exact IH].
Qed.

Lemma scanAll_passes ps :
  snd (scanAll ps) = None <->
  Forall (fun p => String.length p < MaxScanTokenSize) ps.
Proof.
  induction ps as [|piece rest IH]; [split; [constructor|reflexivity]|].
  cbn [scanAll].
  destruct (Nat.leb MaxScanTokenSize (String.length piece)) eqn:Hlen; cbn [snd].
  - apply Nat.leb_le in Hlen. split; [discriminate|].
    intros Hall. inversion Hall; subst. lia.
  - apply Nat.leb_gt in Hlen. rewrite IH. split.
    + intros Hall. now constructor.
    + intros Hall. now inversion Hall.
Qed.

Lemma scanAll_result ps :
  snd (scanAll ps) = None ->
  fst (scanAll ps) =
    filter (fun l => negb (l =? "")) (map (fun p => TrimSpace (dropCR p)) ps).
Proof.
  induction ps as [|piece rest IH]; [reflexivity|]. cbn [scanAll map filter].
  destruct (Nat.leb MaxScanTokenSize (String.length piece)); [discriminate|].
  cbn [fst snd]. intros Hs. rewrite (IH Hs). reflexivity.
Qed.

(** X15. The error [readLines] returns is the error of the open, with
    no line; or, for a file that opened, the scanner's error for a piece
    of 64 KiB or more, whatever the reads did after it; or else the error
    that ended the reads, if there was one. So a file that opened is read
    without error exactly when every piece is shorter than the limit and
    the reads reached the end of the file. When every piece is shorter,
    the lines returned, with or without a read error, are the pieces with
    one carriage return dropped and white space trimmed, the blank ones
    left out, in the order of the file. *)
Theorem readLines_errors :
  (forall err, readLines (NoFile err) = ([], Some err)) /\
  (forall content readErr,
     (Forall (fun p => String.length p < MaxScanTokenSize) (pieces content) ->
      snd (readLines (Bytes content readErr)) = readErr /\
      fst (readLines (Bytes content readErr)) =
        filter (fun l => negb (l =? ""))
          (map (fun p => TrimSpace (dropCR p)) (pieces content))) /\
     (~ Forall (fun p => String.length p < MaxScanTokenSize) (pieces content) ->
      snd (readLines (Bytes content readErr)) = Some ErrTooLong) /\
     (snd (readLines (Bytes content readErr)) = None <->
      Forall (fun p => String.length p < MaxScanTokenSize) (pieces content) /\
      readErr = None)).
Proof.
  split; [reflexivity|]. intros content readErr. cbn [readLines fst snd].
  pose proof (scanAll_passes (pieces content)) as Hp.
  pose proof (scanAll_result (pieces content)) as Hr.
  destruct (scanAll_error (pieces content)) as [Hs|Hs]; rewrite Hs in *.
  - split; [|split].
    + intros _. split; [reflexivity|now apply Hr].
    + intros Hn. exfalso. apply Hn. now apply Hp.
    + split; [intros ->; split; [now apply Hp|reflexivity]|now intros [_ ->]].
  - split; [|split].
    + intros Hall. apply Hp in Hall. discriminate.
    + reflexivity.
    + split; [discriminate|]. intros [Hall _]. apply Hp in Hall. discriminate.
Qed.

(** A directory opens and fails at its first read: no line, and the
    error of the read. *)
Example readLines_of_a_directory :
  readLines (Bytes "" (Some (ErrOther "read repos: is a directory")))
  = ([], Some (ErrOther "read repos: is a directory")).
Proof. reflexivity. Qed.

End FileFacts.

(** ** The branch probe and the start of the program *)

Section StartFacts.
Context {H : Host}.

Local Arguments Command : simpl never.
Local Arguments TrimSpace : simpl never.
Local Arguments String.append : simpl never.


(** X17. An allow list whose entries all have white space at an end lets
    no target through: the branch that [getCurrentBranch] returns is
    trimmed and matches none of them, so every target is skipped. *)
Theorem untrimmed_allow_list_skips_all repo msg allowed dryRun s :
  allowed <> [] ->
  Forall (fun entry => TrimSpace entry <> entry) allowed ->
  exists reason, fst (processRepo repo msg allowed dryRun s) = Skipped reason.
Proof.
  intros Hne Hall.
  pose proof (processRepo_path repo msg allowed dryRun s) as P.
  destruct (processRepo repo msg allowed dryRun s) as [o s'].
  assert (Hrej : forall out, branchRejected allowed (TrimSpace out) = true).
  { intros out. apply branchRejected_spec. split; [exact Hne|].
    intros Hin. rewrite Forall_forall in Hall.
    apply (Hall _ Hin). apply TrimSpace_again. }
  inversion P; subst; cbn [fst]; eauto;
    match goal with Hg : branchRejected _ _ = false |- _ =>
      rewrite Hrej in Hg; discriminate end.
Qed.

Ltac tidy_run :=
  unfold starting; unfold Printf, logger_Printf, emit, bind, ret;
  cbn [fst snd world trace]; rewrite <- ?app_assoc; cbn [app].

(** [main] from the opening of the log file on: how it ends, and what it
    has done by then. *)
Lemma fromLogFile_ends f logFile repoFile s :
  let r := fromLogFile f logFile repoFile s in
  let opening := "=== Starte Operation: " ++ Now (world s) ++ " ===" ++ nl in
  world (snd r) = world s /\
  execs (added s (snd r)) = [] /\
  (fst r = Returns <->
     logFile <> None \/ snd (readLines repoFile) <> None \/
     ((0 <= flag_parallel f)%Z /\ flag_checkout f = false /\ flag_Args f = [])) /\
  (fst r = Returns ->
     List.length (printed (added s (snd r))) = 1 /\
     List.length (logged (added s (snd r))) <= 1) /\
  (fst r = Panics <->
     logFile = None /\ snd (readLines repoFile) = None /\ (flag_parallel f < 0)%Z) /\
  (forall cap mode lines,
     fst r = Dispatches cap mode lines ->
     logFile = None /\ snd (readLines repoFile) = None /\
     lines = fst (readLines repoFile) /\
     Z.of_nat cap = flag_parallel f /\
     match mode with
     | CheckoutMode => flag_checkout f = true
     | PushMode commitMessage =>
         flag_checkout f = false /\ hd_error (flag_Args f) = Some commitMessage
     end) /\
  (fst r <> Returns ->
     printed (added s (snd r)) = [] /\ logged (added s (snd r)) = [opening]).
Proof.
  cbv zeta. unfold fromLogFile, fromMake.
  destruct logFile as [e|].
  { tidy_run. rewrite (added_app s _ [Print _]) by reflexivity. cbn.
    repeat split; intros; try discriminate; try lia; try tauto;
      try (left; discriminate); try (exfalso; intuition congruence). }
  destruct (snd (readLines repoFile)) as [e|] eqn:Hrd.
  { tidy_run. rewrite (added_app s _ [Log _; Print _]) by reflexivity. cbn.
    repeat split; intros; try discriminate; try lia; try tauto;
      try (right; left; discriminate); try (exfalso; intuition congruence). }
  destruct (Z.ltb_spec (flag_parallel f) 0) as [Hneg|Hpos].
  { tidy_run. rewrite (added_app s _ [Log _]) by reflexivity. cbn.
    repeat split; intros; try discriminate; try lia; try tauto;
      try (exfalso; intuition (congruence || lia)). }
  destruct (flag_checkout f) eqn:Hco.
  { tidy_run. rewrite (added_app s _ [Log _]) by reflexivity. cbn.
    repeat split; intros; try discriminate; try lia; try tauto;
      try (exfalso; intuition (congruence || lia));
      try (match goal with Hd : Dispatches _ _ _ = Dispatches _ _ _ |- _ =>
             injection Hd; intros; subst end;
           try reflexivity; try (apply Z2Nat.id; lia)). }
  destruct (flag_Args f) as [|m rest] eqn:Hargs.
  { tidy_run. rewrite (added_app s _ [Log _; Print _]) by reflexivity. cbn.
    repeat split; intros; try discriminate; try lia; try tauto;
      try (right; right; repeat split; (lia || reflexivity));
      try (exfalso; intuition (congruence || lia)). }
  tidy_run. rewrite (added_app s _ [Log _]) by reflexivity. cbn.
  repeat split; intros; try discriminate; try lia; try tauto;
    try (exfalso; intuition (congruence || lia));
    try (match goal with Hd : Dispatches _ _ _ = Dispatches _ _ _ |- _ =>
           injection Hd; intros; subst end;
         try (split; reflexivity); try reflexivity; try (apply Z2Nat.id; lia)).
Qed.


(** X19. The same holds of [main] of the second variant, which has no
    provider URL to miss: it runs no process before its loops, it returns
    early with one line printed exactly on a missing repo file, a log file
    that cannot be opened, an error of [readLines] or, the capacity not
    being negative, a missing commit message, and it panics in [make] for
    a negative [-parallel] before it looks for the commit message. *)
Theorem main_before_the_loop_direct f logFile repoFile s :
  let r := DirectURLMain.main f logFile repoFile s in
  let opening := "=== Starte Operation: " ++ Now (world s) ++ " ===" ++ nl in
  execs (added s (snd r)) = [] /\
  (fst r = Returns <->
     flag_repo_file f = "" \/
     logFile <> None \/ snd (readLines repoFile) <> None \/
     ((0 <= flag_parallel f)%Z /\ flag_checkout f = false /\ flag_Args f = [])) /\
  (fst r = Returns ->
     List.length (printed (added s (snd r))) = 1 /\
     List.length (logged (added s (snd r))) <= 1) /\
  (fst r = Panics <->
     flag_repo_file f <> "" /\
     logFile = None /\ snd (readLines repoFile) = None /\ (flag_parallel f < 0)%Z) /\
  (forall cap mode lines,
     fst r = Dispatches cap mode lines ->
     flag_repo_file f <> "" /\
     logFile = None /\ snd (readLines repoFile) = None /\
     lines = fst (readLines repoFile) /\
     Z.of_nat cap = flag_parallel f /\
     match mode with
     | CheckoutMode => flag_checkout f = true
     | PushMode commitMessage =>
         flag_checkout f = false /\ hd_error (flag_Args f) = Some commitMessage
     end) /\
  (fst r <> Returns ->
     printed (added s (snd r)) = [] /\ logged (added s (snd r)) = [opening]).
Proof.
  cbv zeta. unfold DirectURLMain.main.
  destruct (String.eqb_spec (flag_repo_file f) "") as [Hrf|Hrf].
  { tidy_run. rewrite (added_app s _ [Print _]) by reflexivity. cbn.
    repeat split; intros; try discriminate; try lia; try tauto;
      try (exfalso; intuition congruence). }
  destruct (fromLogFile_ends f logFile repoFile s)
    as (Hw & Hx & Hret & Hone & Hpan & Hdis & Hnot).
  split; [exact Hx|]. split; [|split; [exact Hone|split; [|split]]].
  - rewrite Hret. tauto.
  - rewrite Hpan. tauto.
  - intros cap mode lines Hd.
    destruct (Hdis cap mode lines Hd) as (Hl & Hr & Hlines & Hcap & Hmode).
    repeat (split; [assumption|]). exact Hmode.
  - exact Hnot.
Qed.

End StartFacts.

(** ** What decides a skip, and what a workflow may run *)

Section DecisionFacts.
Context {H : Host}.

Local Arguments Command : simpl never.
Local Arguments TrimSpace : simpl never.
Local Arguments String.append : simpl never.

(** [processRepo] skips for a reason exactly under the answers of
    [skipWhen]. *)
Lemma skip_iff repo msg allowed dryRun s reason :
  fst (processRepo repo msg allowed dryRun s) = Skipped reason <->
  skipWhen repo allowed s reason.
Proof.
  pose proof (processRepo_path repo msg allowed dryRun s) as P.
  destruct (processRepo repo msg allowed dryRun s) as [o s'] eqn:Hrun.
  cbn [fst]. split.
  - intros ->. inversion P; subst; try (econstructor; eassumption).
    exfalso.
    match goal with Hp : _ = pipeline _ _ _ ?st |- _ =>
      apply (pipeline_not_skipped repo msg dryRun st reason); now rewrite <- Hp end.
  - intros W. destruct W; inversion P; subst; try congruence;
      repeat match goal with
             | Ha : start ?c ?w = _, Hb : start ?c ?w = _ |- _ =>
                 rewrite Ha in Hb; injection Hb; intros; subst; clear Hb
             end;
      try congruence;
      try match goal with Hd : _ \/ _ |- _ => destruct Hd; congruence end.
Qed.

(** X20. Which targets are skipped, and for which reason, depends
    neither on the dry-run switch nor on the commit message: a dry run
    skips exactly the targets that a real run would skip in the same
    world. *)
Theorem dry_run_skips_like_a_real_run repo allowed s :
  forall msg1 msg2 dry1 dry2 reason,
    fst (processRepo repo msg1 allowed dry1 s) = Skipped reason <->
    fst (processRepo repo msg2 allowed dry2 s) = Skipped reason.
Proof.
  intros msg1 msg2 dry1 dry2 reason. now rewrite !skip_iff.
Qed.


End DecisionFacts.

(** ** These properties on the small host *)

Section MoreRuns.
Import Toy.

(** [repoB] has no [.git]: it is skipped without a process. *)
Lemma skipped_target_is_not_touched_witness :
  let s' := snd (processRepo "repoB" "sync" [] false (boot disk)) in
  printed (added (boot disk) s') = [] /\
  List.length (logged (added (boot disk) s')) = 1 /\
  world s' = disk.
Proof.
  pose proof (skipped_target_is_not_touched "repoB" "sync" [] false (boot disk)
                NotARepository (snd (processRepo "repoB" "sync" [] false (boot disk)))
                ltac:(vm_compute; reflexivity)) as (Hp & _ & Hl & Hw).
  cbv zeta. split; [exact Hp|]. split; [exact Hl|]. exact (proj1 (Hw eq_refl)).
Defined.

(** The log of the successful run on [repoA]. *)
Lemma processRepo_logged_witness :
  exists branch,
    logged (added (boot disk) (snd (processRepo "repoA" "sync" ["main"] false (boot disk))))
    = [lineRunning "repoA" branch].
Proof.
  exact (processRepo_logged "repoA" "sync" ["main"] false (boot disk) Succeeded
           (snd (processRepo "repoA" "sync" ["main"] false (boot disk)))
           ltac:(vm_compute; reflexivity)).
Defined.

(** [repoA//] is a repository like [repoA]. *)
Lemma isGitRepo_ignores_trailing_separators_witness :
  isGitRepo ("repoA" ++ replicate 2 "/") (boot disk) = isGitRepo "repoA" (boot disk).
Proof.
  refine (proj1 (isGitRepo_ignores_trailing_separators "repoA" 2 (boot disk) _)).
  discriminate.
Defined.

Lemma readLines_gives_clean_lines_witness :
  "repoB" <> "" /\ TrimSpace "repoB" = "repoB" /\ occurs newline "repoB" = false /\
  String.length "repoB" < MaxScanTokenSize.
Proof.
  refine (readLines_gives_clean_lines (Bytes repoFileText None) "repoB" _).
  vm_compute. right. left. reflexivity.
Defined.

Lemma readLines_round_trip_witness :
  readLines (Bytes (Join ["repoA"; "repoB"] (String newline "")) None)
  = (["repoA"; "repoB"], None) /\
  readLines (Bytes (Join ["repoA"; "repoB"] (String newline "") ++ String newline "") None)
  = (["repoA"; "repoB"], None).
Proof.
  refine (readLines_round_trip ["repoA"; "repoB"] _).
  assert (Hclean : forall l,
            l <> "" -> TrimSpace l = l -> occurs newline l = false ->
            Nat.ltb (String.length l) MaxScanTokenSize = true -> cleanLine l).
  { intros l H1 H2 H3 H4. apply Nat.ltb_lt in H4. now repeat split. }
  constructor; [|constructor; [|constructor]];
    apply Hclean; try discriminate; vm_compute; reflexivity.
Defined.

(** The flag [ main], with a space in front, skips [repoA] on [main]. *)
Lemma untrimmed_allow_list_skips_all_witness :
  exists reason,
    fst (processRepo "repoA" "sync" [" main"] false (boot disk)) = Skipped reason.
Proof.
  refine (untrimmed_allow_list_skips_all "repoA" "sync" [" main"] false (boot disk) _ _).
  - discriminate.
  - constructor; [|constructor]. vm_compute. discriminate.
Defined.


End MoreRuns.
